(** * SuperReader: speaker attribution and audio assembly

    A shallow embedding of [SuperReader.py]: the speaker registry
    ([SpeakerManager]), the quote segmenter ([split_narration_dialogue]),
    the attribution pass ([process_text_lines]), the two audio generation
    strategies and the assembler ([combine_audio_files]).

    Python [str] values are sequences of Unicode code points, modelled as
    [list N]; Python floats are the rationals that binary64 represents,
    every float operation rounding its exact result to the nearest of
    them.  The collaborators the program calls but does not define
    (the spaCy annotator, the TTS engine, librosa's resampler and time
    stretcher, the name data set, the Unicode table behind [\w]) are
    Section variables. *)

From Stdlib Require Import String Ascii DecimalString DecimalFacts DecimalNat.
From Stdlib Require Import List Bool Arith NArith ZArith QArith Qround Qpower.
From Stdlib Require Import Lia Lqa Permutation Sorted.
Import ListNotations.

Set Implicit Arguments.
Open Scope nat_scope.

(* ================================================================= *)
(** ** Python strings *)

Definition pystr : Type := list N.

(** A string literal of the source, as code points. *)
Definition py (s : string) : pystr :=
  List.map N_of_ascii (list_ascii_of_string s).

Definition pystr_eqb (a b : pystr) : bool :=
  if list_eq_dec N.eq_dec a b then true else false.

(** Truth value of a [str]: the empty string is falsy. *)
Definition truthy (s : pystr) : bool :=
  match s with [] => false | _ :: _ => true end.

(** Truth value of an optional [str]: [None] and the empty string are
    falsy. *)
Definition truthy_opt (o : option pystr) : bool :=
  match o with None => false | Some s => truthy s end.

(** The value tested by [if x:], kept when it is truthy. *)
Definition if_truthy (o : option pystr) : option pystr :=
  match o with
  | Some s => if truthy s then Some s else None
  | None => None
  end.

(** [str.isspace] on one code point: the characters [str.strip()] removes. *)
Definition is_space (c : N) : bool :=
  ((9 <=? c) && (c <=? 13) || (28 <=? c) && (c <=? 32)
   || (c =? 133) || (c =? 160) || (c =? 5760)
   || (8192 <=? c) && (c <=? 8202)
   || (c =? 8232) || (c =? 8233) || (c =? 8239) || (c =? 8287)
   || (c =? 12288))%N.

Fixpoint lstrip (s : pystr) : pystr :=
  match s with
  | [] => []
  | c :: s' => if is_space c then lstrip s' else s
  end.

Definition rstrip (s : pystr) : pystr := rev (lstrip (rev s)).

(** [s.strip()] *)
Definition strip (s : pystr) : pystr := rstrip (lstrip s).

Fixpoint startswith (p s : pystr) : bool :=
  match p, s with
  | [], _ => true
  | _ :: _, [] => false
  | a :: p', b :: s' => (a =? b)%N && startswith p' s'
  end.

(** [s.endswith(p)] *)
Definition endswith (s p : pystr) : bool := startswith (rev p) (rev s).

(** Lexicographic order on code points, the order of [sorted] on [str]. *)
Fixpoint pystr_leb (a b : pystr) : bool :=
  match a, b with
  | [], _ => true
  | _ :: _, [] => false
  | x :: a', y :: b' =>
      if (x <? y)%N then true
      else if (y <? x)%N then false
      else pystr_leb a' b'
  end.

Fixpoint insert_sorted (x : pystr) (l : list pystr) : list pystr :=
  match l with
  | [] => [x]
  | y :: l' => if pystr_leb x y then x :: l else y :: insert_sorted x l'
  end.

(** [sorted(names)] *)
Fixpoint sorted (l : list pystr) : list pystr :=
  match l with
  | [] => []
  | x :: l' => insert_sorted x (sorted l')
  end.

(* ================================================================= *)
(** ** Python floats *)

Definition pow2 (q : Z) : Q := (2 ^ q)%Q.

(** The integer nearest to [y], the even one when two are as near. *)
Definition round_half_even (y : Q) : Z :=
  let f := Qfloor y in
  match (y - inject_Z f ?= 1 # 2)%Q with
  | Lt => f
  | Gt => (f + 1)%Z
  | Eq => if Z.even f then f else (f + 1)%Z
  end.

(** The binary exponent of a positive rational: [2^e <= x < 2^(e+1)]. *)
Definition ilog2 (x : Q) : Z :=
  let e0 := (Z.log2 (Qnum x) - Z.log2 (Zpos (Qden x)))%Z in
  if Qle_bool (pow2 e0) x then e0 else (e0 - 1)%Z.

(** A positive rational rounded to binary64: 53 significant bits, the last
    place never finer than [2^-1074].  Overflow to infinity is left out. *)
Definition fl_pos (x : Q) : Q :=
  let q := (Z.max (ilog2 x) (-1022) - 52)%Z in
  Qred (inject_Z (round_half_even (x / pow2 q)) * pow2 q).

(** The float nearest to [x], ties to even. *)
Definition fl (x : Q) : Q :=
  match Qnum x with
  | Z0 => 0%Q
  | Zpos _ => fl_pos x
  | Zneg _ => (- fl_pos (- x))%Q
  end.

(** [float(z)] for an [int]. *)
Definition float_of_int (z : Z) : Q := fl (inject_Z z).

(* ================================================================= *)
(** ** Text cleaning and segmentation *)

(** [clean_text]: [re.sub(r'[^\x00-\x7F]+', '', text)] deletes every run of
    code points above 0x7F and keeps the rest in order. *)
Definition is_ascii (c : N) : bool := (c <=? 127)%N.

Definition clean_text (text : pystr) : pystr := filter is_ascii text.

Definition QUOTE : N := 34.

Definition is_quote (c : N) : bool := (c =? QUOTE)%N.

(** The class of non-quote characters, starred and greedy: the longest
    quote-free prefix and what follows it. *)
Fixpoint span_nonquote (s : pystr) : pystr * pystr :=
  match s with
  | [] => ([], [])
  | c :: s' =>
      if is_quote c then ([], s)
      else let (a, b) := span_nonquote s' in (c :: a, b)
  end.

(** One match of the pattern at the head of [s] (a quote-free run, then
    optionally a quote, a quote-free run and a quote): both groups (an
    unmatched group reads as the empty string in [findall]) and the text
    after the match.  The optional group matches only when a closing quote
    exists; otherwise the match ends before the opening quote. *)
Definition match_pattern (s : pystr) : pystr * pystr * pystr :=
  let (g1, r1) := span_nonquote s in
  match r1 with
  | [] => (g1, [], [])
  | _ :: r2 =>
      let (g2, r3) := span_nonquote r2 in
      match r3 with
      | [] => (g1, [], r1)
      | _ :: r4 => (g1, g2, r4)
      end
  end.

(** The scanning loop of [re.findall]: each search starts where the last
    match ended; after an empty match the next one must advance, so the
    empty match at the same place is refused and the search moves one
    character on ([must_advance] holds for the first attempt only). *)
Fixpoint findall_from (fuel : nat) (must_advance : bool) (s : pystr)
  : list (pystr * pystr) :=
  match fuel with
  | O => []
  | S fuel' =>
      let '(g1, g2, rest) := match_pattern s in
      if must_advance && (length rest =? length s)%nat then
        match s with
        | [] => []
        | _ :: s' =>
            let '(h1, h2, rest') := match_pattern s' in
            (h1, h2)
              :: findall_from fuel' (length rest' =? length s')%nat rest'
        end
      else (g1, g2) :: findall_from fuel' (length rest =? length s)%nat rest
  end.

(** [re.findall(pattern, line)]; the loop runs at most twice per position. *)
Definition findall (line : pystr) : list (pystr * pystr) :=
  findall_from (2 * length line + 2) false line.

Inductive PartType := narration | dialogue.

Record Part := { ptype : PartType; ptext : pystr }.

Definition part_if_nonblank (t : PartType) (s : pystr) : list Part :=
  if truthy (strip s) then [{| ptype := t; ptext := strip s |}] else [].

(** The body of the loop over matches. *)
Definition parts_of_match (m : pystr * pystr) : list Part :=
  part_if_nonblank narration (fst m) ++ part_if_nonblank dialogue (snd m).

Definition split_narration_dialogue (line : pystr) : list Part :=
  flat_map parts_of_match (findall line).

Definition count_quotes (s : pystr) : nat := length (filter is_quote s).

Definition non_space (c : N) : bool := negb (is_space c).

(** The content of a line: whatever is neither white space nor a quote
    delimiter. *)
Definition content (s : pystr) : pystr :=
  filter non_space (filter (fun c => negb (is_quote c)) s).

Definition joined_text (ps : list Part) : pystr := concat (List.map ptext ps).

Definition quote_free (s : pystr) : Prop :=
  Forall (fun c => is_quote c = false) s.

(** The three ways a line can begin, as the pattern sees it. *)
Inductive Shape : pystr -> Prop :=
| shape_plain g :
    quote_free g -> Shape g
| shape_open g t :
    quote_free g -> quote_free t -> Shape (g ++ QUOTE :: t)
| shape_closed g d rest :
    quote_free g -> quote_free d ->
    Shape (g ++ QUOTE :: d ++ QUOTE :: rest).

(** Fuel that [findall_from] needs on [s]. *)
Definition findall_measure (must_advance : bool) (s : pystr) : nat :=
  2 * length s + (if must_advance then 1 else 2).

(* ================================================================= *)
(** ** Speakers and the superbook *)

Record Speaker := {
  name : pystr;
  gender : pystr;
  number : pystr;
  pitch_factor : Q
}.

Record Entry := { speaker : pystr; text : pystr }.

(** The generator behind [random.random()]: the sequence of 53-bit integers
    it will produce and how many were consumed.  [random()] returns
    [k / 2^53] for a 53-bit [k]. *)
Record RandomState := { draws : nat -> N; used : nat }.

Definition random_random (r : RandomState) : Q * RandomState :=
  (Z.of_N (draws r (used r) mod 2 ^ 53) # 2 ^ 53,
   {| draws := draws r; used := S (used r) |}).

(** [random.uniform(a, b)] is [a + (b - a) * random()], three float
    operations. *)
Definition random_uniform (a b : Q) (r : RandomState) : Q * RandomState :=
  let (u, r') := random_random r in
  (fl (a + fl (fl (b - a) * u))%Q, r').

Definition PITCH_FACTOR_RANGE : Q * Q := (fl (8 # 10), fl (13 # 10)).

(** [SpeakerManager]: the speaker list and the superbook.  The state of the
    global random generator is carried along, [add_speaker] being its only
    user. *)
Record SpeakerManager := {
  speakers : list Speaker;
  superbook : list Entry;
  random_state : RandomState
}.

Definition Narrator : pystr := py "Narrator".
Definition unknown : pystr := py "unknown".
Definition singular : pystr := py "singular".

(** [SpeakerManager.__init__] *)
Definition init (r : RandomState) : SpeakerManager :=
  {| speakers := [ {| name := Narrator; gender := unknown;
                      number := singular; pitch_factor := 1 |} ];
     superbook := [];
     random_state := r |}.

(** [next((s for s in self.speakers if s[name] == n), None)] *)
Definition get_speaker (sm : SpeakerManager) (n : pystr) : option Speaker :=
  find (fun s => pystr_eqb (name s) n) (speakers sm).

(** Assignment to the gender key of the first speaker called [n]. *)
Fixpoint set_gender (n g : pystr) (l : list Speaker) : list Speaker :=
  match l with
  | [] => []
  | s :: l' =>
      if pystr_eqb (name s) n
      then {| name := name s; gender := g; number := number s;
              pitch_factor := pitch_factor s |} :: l'
      else s :: set_gender n g l'
  end.

Definition add_speaker (n g num : pystr) (sm : SpeakerManager)
  : SpeakerManager :=
  match get_speaker sm n with
  | Some existing =>
      if pystr_eqb (gender existing) unknown && negb (pystr_eqb g unknown)
      then {| speakers := set_gender n g (speakers sm);
              superbook := superbook sm;
              random_state := random_state sm |}
      else sm
  | None =>
      let (pf, r') := random_uniform (fst PITCH_FACTOR_RANGE)
                                     (snd PITCH_FACTOR_RANGE)
                                     (random_state sm) in
      {| speakers := speakers sm ++
                     [ {| name := n; gender := g; number := num;
                          pitch_factor := pf |} ];
         superbook := superbook sm;
         random_state := r' |}
  end.

Definition append_entry (e : Entry) (sm : SpeakerManager) : SpeakerManager :=
  {| speakers := speakers sm;
     superbook := superbook sm ++ [e];
     random_state := random_state sm |}.

Definition unnamed_speaker_1 : pystr := py "Unnamed Speaker 1".
Definition unnamed_speaker_2 : pystr := py "Unnamed Speaker 2".

(** [alternate_speakers_without_person_entities]: the loop over the lines,
    [idx] being [current_speaker_index]. *)
Fixpoint alternate_lines (idx : nat) (lines : list pystr)
                         (sm : SpeakerManager) : SpeakerManager :=
  match lines with
  | [] => sm
  | line :: rest =>
      let current_speaker :=
        nth idx [unnamed_speaker_1; unnamed_speaker_2] [] in
      alternate_lines ((idx + 1) mod 2) rest
        (append_entry {| speaker := current_speaker; text := strip line |} sm)
  end.

Definition alternate_speakers_without_person_entities
    (lines : list pystr) (sm : SpeakerManager) : SpeakerManager :=
  alternate_lines 0 lines
    (add_speaker unnamed_speaker_2 unknown singular
       (add_speaker unnamed_speaker_1 unknown singular sm)).

(* ================================================================= *)
(** ** Annotations *)

(** What the program reads of a spaCy token, entity span and document. *)
Record Token := {
  tok_text : pystr;
  lower_ : pystr;
  pos_ : pystr;
  dep_ : pystr
}.

Record Span := { ent_text : pystr; label_ : pystr }.

Record Doc := { ents : list Span; tokens : list Token }.

Definition pronoun_map : list (pystr * pystr) :=
  [ (py "he", py "male"); (py "him", py "male"); (py "his", py "male");
    (py "she", py "female"); (py "her", py "female");
    (py "hers", py "female"); (py "they", py "unknown") ].

Fixpoint dict_get (k : pystr) (d : list (pystr * pystr)) : option pystr :=
  match d with
  | [] => None
  | (k', v) :: d' => if pystr_eqb k' k then Some v else dict_get k d'
  end.

Fixpoint infer_gender_tokens (ts : list Token) : pystr :=
  match ts with
  | [] => py "unknown"
  | t :: ts' =>
      if pystr_eqb (pos_ t) (py "PRON") then
        match dict_get (lower_ t) pronoun_map with
        | Some g => g
        | None => infer_gender_tokens ts'
        end
      else infer_gender_tokens ts'
  end.

Definition infer_gender_from_pronouns (doc : Doc) : pystr :=
  infer_gender_tokens (tokens doc).

Definition get_named_speaker (doc : Doc) : option pystr :=
  match find (fun e => pystr_eqb (label_ e) (py "PERSON")) (ents doc) with
  | Some e => Some (ent_text e)
  | None =>
      match find (fun t => pystr_eqb (pos_ t) (py "PROPN")
                           && (pystr_eqb (dep_ t) (py "nsubj")
                               || pystr_eqb (dep_ t) (py "attr")))
                 (tokens doc) with
      | Some t => Some (tok_text t)
      | None => None
      end
  end.

(** A decoded audio file: the samples [y] and the sample rate [sr]. *)
Definition Wave : Type := (list Z * Z)%type.

(* ================================================================= *)
(** ** Test doubles for the collaborators

    Concrete stand-ins used where a statement is evaluated on an input. *)

(** An annotator that tags nothing. *)
Definition nlp_blank (line : pystr) : Doc := {| ents := []; tokens := [] |}.

(** An annotator that tags one PERSON entity, [who], on every line. *)
Definition nlp_person (who : pystr) (line : pystr) : Doc :=
  {| ents := [ {| ent_text := who; label_ := py "PERSON" |} ];
     tokens := [] |}.

(** No code point above 0x7F counts as alphanumeric. *)
Definition ascii_only_alnum (c : N) : bool := false.

(** A name data set with no entry. *)
Definition nd_empty (n : pystr) : option pystr := None.

(** A generator whose every draw is the given integer. *)
Definition constant_random (k : N) : RandomState :=
  {| draws := fun _ => k; used := 0 |}.

(** An engine that writes the same waveform for every text. *)
Definition tts_constant (w : Wave) (t : pystr) : option Wave := Some w.

(** Resampling by taking the nearest earlier sample. *)
Definition resample_nearest (y : list Z) (orig_sr target_sr : Z)
  : option (list Z) :=
  if ((orig_sr <=? 0) || (target_sr <=? 0))%Z then None
  else
    let n := Z.to_nat ((Z.of_nat (length y) * target_sr + orig_sr - 1)
                       / orig_sr) in
    Some (List.map
            (fun i => nth (Z.to_nat (Z.of_nat i * orig_sr / target_sr)) y 0%Z)
            (seq 0 n)).

(** Time stretching by taking the nearest earlier sample. *)
Definition time_stretch_nearest (y : list Z) (rate : Q) : option (list Z) :=
  if Qle_bool rate 0 then None
  else
    let n := Z.to_nat (Qfloor (inject_Z (Z.of_nat (length y)) / rate
                               + (1 # 2))%Q) in
    Some (List.map
            (fun i => nth (Z.to_nat (Qfloor (inject_Z (Z.of_nat i) * rate)%Q))
                          y 0%Z)
            (seq 0 n)).

Section Collaborators.

Set Default Proof Using "Type".

(** The spaCy pipeline [nlp]. *)
Variable nlp : pystr -> Doc.

(** Whether a code point above 0x7F is alphanumeric for [\w]. *)
Variable unicode_alnum : N -> bool.

(** [NameWrapper(nd.search(n)).gender.lower()]; [None] when the search finds
    nothing or raises. *)
Variable nd_search : pystr -> option pystr.

(* ================================================================= *)
(** ** Attribution *)

(** [\w] *)
Definition is_word (c : N) : bool :=
  if (c <=? 127)%N then
    ((48 <=? c) && (c <=? 57) || (65 <=? c) && (c <=? 90)
     || (97 <=? c) && (c <=? 122) || (c =? 95))%N
  else unicode_alnum c.

Definition attribution_verbs : list pystr :=
  [ py "said"; py "asked"; py "replied"; py "shouted"; py "whispered";
    py "added" ].

(** [\w+], greedy *)
Fixpoint take_word (s : pystr) : pystr :=
  match s with
  | [] => []
  | c :: s' => if is_word c then c :: take_word s' else []
  end.

(** The rest of [s] after the literal [p], when [s] starts with it. *)
Fixpoint drop_prefix (p s : pystr) : option pystr :=
  match p, s with
  | [], _ => Some s
  | _ :: _, [] => None
  | a :: p', b :: s' => if (a =? b)%N then drop_prefix p' s' else None
  end.

(** After the verb: one space, then group 2. *)
Definition match_name (s : pystr) : option pystr :=
  match s with
  | [] => None
  | c :: s' =>
      if (c =? 32)%N then
        let w := take_word s' in if truthy w then Some w else None
      else None
  end.

(** The alternation, tried left to right; the result is group 2. *)
Fixpoint match_alternatives (verbs : list pystr) (s : pystr)
  : option pystr :=
  match verbs with
  | [] => None
  | v :: vs =>
      match match drop_prefix v s with
            | Some r => match_name r
            | None => None
            end with
      | Some w => Some w
      | None => match_alternatives vs s
      end
  end.

(** [\b]: exactly one of the characters before and after is a word
    character. *)
Definition word_boundary (prev : option N) (s : pystr) : bool :=
  xorb (match prev with Some c => is_word c | None => false end)
       (match s with c :: _ => is_word c | [] => false end).

Definition match_attribution_at (prev : option N) (s : pystr)
  : option pystr :=
  if word_boundary prev s then match_alternatives attribution_verbs s
  else None.

(** [re.search]: the match at the leftmost position that has one. *)
Fixpoint search_attribution (prev : option N) (s : pystr) : option pystr :=
  match match_attribution_at prev s with
  | Some w => Some w
  | None =>
      match s with
      | [] => None
      | c :: s' => search_attribution (Some c) s'
      end
  end.

Definition detect_attribution (text : pystr) : option pystr :=
  search_attribution None text.

(** State of the loop of [process_text_lines]: the manager and the local
    [last_quoted_speaker]. *)
Definition Attribution : Type := (SpeakerManager * option pystr)%type.

(** Body of the loop over the parts of one line. *)
Definition process_part (named_speaker : option pystr) (g : pystr)
                        (st : Attribution) (part : Part) : Attribution :=
  let (sm, last_quoted_speaker) := st in
  match ptype part with
  | dialogue =>
      match if_truthy named_speaker with
      | Some current_speaker =>
          (append_entry
             {| speaker := current_speaker; text := ptext part |}
             (add_speaker current_speaker g singular sm),
           Some current_speaker)
      | None =>
          let current_speaker :=
            match if_truthy last_quoted_speaker with
            | Some s => s
            | None => unnamed_speaker_1
            end in
          (append_entry
             {| speaker := current_speaker; text := ptext part |} sm,
           last_quoted_speaker)
      end
  | narration =>
      let attribution := detect_attribution (ptext part) in
      let entry := {| speaker := Narrator; text := ptext part |} in
      match if_truthy attribution with
      | Some current_speaker =>
          (append_entry entry
             (add_speaker current_speaker unknown singular sm),
           Some current_speaker)
      | None => (append_entry entry sm, last_quoted_speaker)
      end
  end.

(** Body of the loop over the lines. *)
Definition process_line (st : Attribution) (line : pystr) : Attribution :=
  let line := clean_text line in
  let line_doc := nlp line in
  let named_speaker := get_named_speaker line_doc in
  let g := if truthy_opt named_speaker
           then infer_gender_from_pronouns line_doc
           else unknown in
  fold_left (process_part named_speaker g)
            (split_narration_dialogue line) st.

(** The loop of [process_text_lines], with the final value of
    [last_quoted_speaker]. *)
Definition process_lines_from (lines : list pystr) (st : Attribution)
  : Attribution :=
  fold_left process_line lines st.

Definition process_text_lines (lines : list pystr) (sm : SpeakerManager)
  : SpeakerManager :=
  fst (process_lines_from lines (sm, None)).

(** [guess_genders_for_speakers] *)
Definition guess_gender (s : Speaker) : Speaker :=
  if pystr_eqb (gender s) unknown && negb (pystr_eqb (name s) Narrator)
  then match nd_search (name s) with
       | Some g => {| name := name s; gender := g; number := number s;
                      pitch_factor := pitch_factor s |}
       | None => s
       end
  else s.

Definition guess_genders_for_speakers (sm : SpeakerManager)
  : SpeakerManager :=
  {| speakers := List.map guess_gender (speakers sm);
     superbook := superbook sm;
     random_state := random_state sm |}.

(** The operations of the program on a [SpeakerManager]. *)
Inductive Op :=
| OpAddSpeaker (n g num : pystr)
| OpGetSpeaker (n : pystr)
| OpAlternate (lines : list pystr)
| OpProcessTextLines (lines : list pystr)
| OpGuessGenders.

Definition run_op (sm : SpeakerManager) (op : Op) : SpeakerManager :=
  match op with
  | OpAddSpeaker n g num => add_speaker n g num sm
  | OpGetSpeaker n => let _ := get_speaker sm n in sm
  | OpAlternate lines => alternate_speakers_without_person_entities lines sm
  | OpProcessTextLines lines => process_text_lines lines sm
  | OpGuessGenders => guess_genders_for_speakers sm
  end.

Definition run_ops (ops : list Op) (sm : SpeakerManager) : SpeakerManager :=
  fold_left run_op ops sm.

(* ================================================================= *)
(** ** Audio generation *)


(** The audio directory: file names with their contents, in creation
    order. *)
Definition Filesystem : Type := list (pystr * Wave).

(** Writing a file.  The write is taken to succeed, as it does under a
    file name that the file system takes. *)
Fixpoint fs_write (path : pystr) (w : Wave) (fs : Filesystem) : Filesystem :=
  match fs with
  | [] => [(path, w)]
  | (p, c) :: fs' =>
      if pystr_eqb p path then (p, w) :: fs' else (p, c) :: fs_write path w fs'
  end.

Definition fs_exists (path : pystr) (fs : Filesystem) : bool :=
  existsb (fun f => pystr_eqb (fst f) path) fs.

Definition fs_remove (path : pystr) (fs : Filesystem) : Filesystem :=
  filter (fun f => negb (pystr_eqb (fst f) path)) fs.

(** [os.listdir(directory)]: the names of the files under [directory]. *)
Definition listdir (directory : pystr) (fs : Filesystem) : list pystr :=
  flat_map (fun f => match drop_prefix (directory ++ py "/") (fst f) with
                     | Some n => [n]
                     | None => []
                     end) fs.

(** [tts_model.tts_to_file(text=...)]: the waveform the engine writes, or
    [None] when it raises. *)
Variable tts_to_file : pystr -> option Wave.

(** [librosa.resample(y, orig_sr, target_sr)]; [None] when it raises. *)
Variable librosa_resample : list Z -> Z -> Z -> option (list Z).

(** [librosa.effects.time_stretch(y, rate)]; [None] when it raises. *)
Variable librosa_time_stretch : list Z -> Q -> option (list Z).

Definition MIN_AUDIO_DURATION : Q := fl (5 # 10).

(** [str(index)] *)
Definition str_of_nat (n : nat) : pystr :=
  py (DecimalString.NilZero.string_of_uint (Nat.to_uint n)).

(** [s.zfill(width)]: zeros on the left up to [width], after a leading
    sign. *)
Definition zfill (width : nat) (s : pystr) : pystr :=
  let zeros := repeat 48%N (width - length s) in
  match s with
  | c :: s' => if ((c =? 43) || (c =? 45))%N then c :: zeros ++ s'
               else zeros ++ s
  | [] => zeros
  end.

Definition temp_audio_path (index : nat) : pystr :=
  py "audio/temp_" ++ str_of_nat index ++ py ".wav".

Definition output_audio_path (width index : nat) (speaker_name : pystr)
  : pystr :=
  py "audio/" ++ zfill width (str_of_nat index) ++ py "_" ++ speaker_name
    ++ py ".wav".

(** [int(x)]: truncation towards zero. *)
Definition py_int (x : Q) : Z :=
  if Qle_bool 0 x then Qfloor x else Qceiling x.

(** True division; [None] stands for [ZeroDivisionError]. *)
Definition py_div (a b : Q) : option Q :=
  if Qeq_bool b 0 then None else Some (fl (a / b)).

(** [librosa.get_duration(y=y, sr=sr)]: the number of samples, as a float,
    over the sample rate. *)
Definition get_duration (y : list Z) (sr : Z) : option Q :=
  py_div (float_of_int (Z.of_nat (length y))) (float_of_int sr).

Definition Qlt_bool (a b : Q) : bool := negb (Qle_bool b a).

Definition bind {A B : Type} (o : option A) (k : A -> option B) : option B :=
  match o with Some a => k a | None => None end.

Notation "x <- e ;; k" := (bind e (fun x => k))
  (at level 61, e at next level, right associativity).

(** The [try] block of [apply_pitch_shift_librosa]: what is written to
    [output_path], or [None] when an exception is raised (and logged). *)
Definition pitch_shifted (y : list Z) (sr : Z) (pf : Q) : option Wave :=
  let new_sr := py_int (fl (float_of_int sr * pf)) in
  shifted_audio <- librosa_resample y sr new_sr ;;
  original_length <- py_div (inject_Z (Z.of_nat (length y))) (inject_Z sr) ;;
  duration_stretch_factor <-
    py_div (float_of_int (Z.of_nat (length shifted_audio)))
           (fl (float_of_int sr * original_length)) ;;
  stretched_audio <-
    librosa_time_stretch shifted_audio duration_stretch_factor ;;
  Some (stretched_audio, sr).

Definition apply_pitch_shift_librosa (y : list Z) (sr : Z) (pf : Q)
    (output_path : pystr) (fs : Filesystem) : Filesystem :=
  match pitch_shifted y sr pf with
  | Some w => fs_write output_path w fs
  | None => fs
  end.

(** [enumerate(l, 1)] *)
Definition enumerate1 {A : Type} (l : list A) : list (nat * A) :=
  combine (seq 1 (length l)) l.

Definition remove_if_exists (path : pystr) (fs : Filesystem) : Filesystem :=
  if fs_exists path fs then fs_remove path fs else fs.

(** [process_entry] of [generate_audio_with_librosa_multithreading]. *)
Definition process_entry (sm : SpeakerManager) (fs : Filesystem)
                         (task : nat * Entry) : Filesystem :=
  let (index, entry) := task in
  let speaker_name := speaker entry in
  match get_speaker sm speaker_name with
  | None => fs
  | Some speaker_data =>
      let temp := temp_audio_path index in
      let output := output_audio_path 2 index speaker_name in
      match tts_to_file (text entry) with
      | None => fs
      | Some (y, sr) =>
          let fs1 := fs_write temp (y, sr) fs in
          let fs2 := apply_pitch_shift_librosa y sr
                       (pitch_factor speaker_data) output fs1 in
          remove_if_exists temp fs2
      end
  end.

(** The worker pool runs the submitted tasks in an order of its own:
    [schedule] is that order, a rearrangement of the submitted tasks. *)
Definition generate_audio_with_librosa_multithreading
    (schedule : list (nat * Entry) -> list (nat * Entry))
    (sm : SpeakerManager) (fs : Filesystem) : Filesystem :=
  fold_left (process_entry sm) (schedule (enumerate1 (superbook sm))) fs.

(** Body of the loop of [generate_audio_with_librosa_single_thread]. *)
Definition single_thread_entry (num_digits : nat) (sm : SpeakerManager)
    (fs : Filesystem) (task : nat * Entry) : Filesystem :=
  let (index, entry) := task in
  let speaker_name := speaker entry in
  match get_speaker sm speaker_name with
  | None => fs
  | Some speaker_data =>
      let temp := temp_audio_path index in
      let output := output_audio_path num_digits index speaker_name in
      match tts_to_file (text entry) with
      | None => fs
      | Some (y, sr) =>
          let fs1 := fs_write temp (y, sr) fs in
          match get_duration y sr with
          | None => fs1
          | Some duration =>
              if Qlt_bool duration MIN_AUDIO_DURATION
              then fs_write output (y, sr) fs1
              else
                remove_if_exists temp
                  (apply_pitch_shift_librosa y sr
                     (pitch_factor speaker_data) output fs1)
          end
      end
  end.

Definition generate_audio_with_librosa_single_thread
    (sm : SpeakerManager) (fs : Filesystem) : Filesystem :=
  let total_entries := length (superbook sm) in
  let num_digits := length (str_of_nat total_entries) in
  fold_left (single_thread_entry num_digits sm)
            (enumerate1 (superbook sm)) fs.

(* ================================================================= *)
(** ** Assembly *)

(** A pydub segment, as the sequence of its frames.  [a + b] is [a ++ b]:
    the frames of [a], then those of [b]; the conversion to one format
    that pydub applies first when the formats of the two differ keeps that
    order and is not modelled. *)
Definition AudioSegment : Type := list Z.

(** [AudioSegment.silent(duration)], at its default frame rate of
    11025 Hz: [int(frame_rate * (duration / 1000.0))] frames of silence. *)
Definition silent (duration : nat) : AudioSegment :=
  let frame_rate := 11025%Z in
  let frames :=
    py_int (fl (float_of_int frame_rate
                * fl (float_of_int (Z.of_nat duration) / 1000))%Q) in
  repeat 0%Z (Z.to_nat frames).

Definition DELAY_BETWEEN_LINES_MS : nat := 300.

(** [combine_audio_files]: [listing] is [os.listdir(directory)] and
    [from_wav] decodes the file of a given name; the result is the segment
    that is exported. *)
Definition combine_audio_files (listing : list pystr)
    (from_wav : pystr -> AudioSegment) : AudioSegment :=
  fold_left
    (fun combined filename =>
       if endswith filename (py ".wav")
       then combined ++ (from_wav filename ++ silent DELAY_BETWEEN_LINES_MS)
       else combined)
    (sorted listing) (silent 0).

Definition wav_files (listing : list pystr) : list pystr :=
  filter (fun f => endswith f (py ".wav")) listing.

(** Two speaker records with the same name and the same voice. *)
Definition same_voice (a b : Speaker) : Prop :=
  name a = name b /\ pitch_factor a = pitch_factor b.

(** [l'] holds the speakers of [l], in order and with their voices, and
    perhaps more speakers after them. *)
Definition grows (l l' : list Speaker) : Prop :=
  exists l1 extra, l' = l1 ++ extra /\ Forall2 same_voice l l1.

Definition in_pitch_range (q : Q) : Prop :=
  (fst PITCH_FACTOR_RANGE <= q /\ q <= snd PITCH_FACTOR_RANGE)%Q.

Definition registered (sm : SpeakerManager) (n : pystr) : Prop :=
  exists s, get_speaker sm n = Some s.

(** The character just before the position that follows [before], [prev]
    being the one before [before]. *)
Definition char_before (prev : option N) (before : pystr) : option N :=
  match rev before with
  | c :: _ => Some c
  | [] => prev
  end.

Definition not_word_char (o : option N) : Prop :=
  match o with
  | Some c => is_word c = false
  | None => True
  end.

(** What the attribution pattern matches after [before]: one of the six
    verb forms at a word boundary, one space, and the longest run [w] of
    word characters, which is not empty; [after] is the rest. *)
Definition attribution_occurrence (prev : option N)
                                  (before verb w after : pystr) : Prop :=
  In verb attribution_verbs /\
  not_word_char (char_before prev before) /\
  w <> [] /\
  Forall (fun c => is_word c = true) w /\
  not_word_char (hd_error after).

(** The script entry written for a part. *)
Definition entry_of_part (e : Entry) (p : Part) : Prop :=
  text e = ptext p /\ (ptype p = narration -> speaker e = Narrator).

(** What holds of the attribution state after each part: the narrator is
    registered, and so are the last quoted speaker and the speaker of
    every entry that is not the placeholder. *)
Definition attribution_ok (st : Attribution) : Prop :=
  registered (fst st) Narrator /\
  (forall s, if_truthy (snd st) = Some s -> registered (fst st) s) /\
  Forall (fun e => registered (fst st) (speaker e)
                   \/ speaker e = unnamed_speaker_1)
         (superbook (fst st)).

(** Every speaker but the narrator has a pitch factor in the range. *)
Definition pitch_ok (l : list Speaker) : Prop :=
  Forall (fun s => name s <> Narrator -> in_pitch_range (pitch_factor s)) l.

(* ================================================================= *)
(** ** Notions for the properties of the registry, the segmenter, the
       file names and the assembler *)

(** What a registered speaker keeps for good: the name, the number, the
    pitch factor and, once it is known, the gender. *)
Definition keeps_record (a b : Speaker) : Prop :=
  name a = name b /\ number a = number b /\
  pitch_factor a = pitch_factor b /\
  (gender a <> unknown -> gender b = gender a).

(** [l'] holds the speakers of [l] in the same places, each keeping its
    record, and perhaps more speakers after them. *)
Definition extends (l l' : list Speaker) : Prop :=
  exists l1 extra, l' = l1 ++ extra /\ Forall2 keeps_record l l1.

Definition names (sm : SpeakerManager) : list pystr :=
  List.map name (speakers sm).

(** The pieces of a line between its quote characters, as [line.split]
    on the quote character gives them: one more than there are quotes. *)
Fixpoint quote_pieces (s : pystr) : list pystr :=
  match s with
  | [] => [[]]
  | c :: s' =>
      if is_quote c then [] :: quote_pieces s'
      else match quote_pieces s' with
           | p :: ps => (c :: p) :: ps
           | [] => [[c]]
           end
  end.

(** The pieces read as segments: a piece that lies between an opening and
    a closing quote is dialogue, any other is narration, the last piece
    always, no quote following it; [inside] tells whether the first piece
    follows an opening quote. *)
Fixpoint tag_pieces (inside : bool) (ps : list pystr) : list Part :=
  match ps with
  | [] => []
  | p :: rest =>
      match rest with
      | [] => part_if_nonblank narration p
      | _ :: _ =>
          part_if_nonblank (if inside then dialogue else narration) p
            ++ tag_pieces (negb inside) rest
      end
  end.

(** [a <= b] on Python strings. *)
Definition pystr_le (a b : pystr) : Prop := pystr_leb a b = true.

Definition is_digit (c : N) : bool := ((48 <=? c) && (c <=? 57))%N.

(** [int(s)] for a string of decimal digits, read from the left with an
    accumulator. *)
Fixpoint int_of_digits_acc (s : pystr) (acc : nat) : nat :=
  match s with
  | [] => acc
  | c :: s' => int_of_digits_acc s' (10 * acc + (N.to_nat c - 48))
  end.

Definition int_of_digits (s : pystr) : nat := int_of_digits_acc s 0.

(** The characters of a speaker name that every file system takes in a
    file name: ASCII letters, digits, the underscore and the space. *)
Definition is_plain_char (c : N) : bool :=
  ((48 <=? c) && (c <=? 57) || (65 <=? c) && (c <=? 90)
   || (97 <=? c) && (c <=? 122) || (c =? 95) || (c =? 32))%N.

(** An output file that can be written: the speaker name is made of such
    characters, and the file name (padded index, underscore, speaker
    name, extension) has at most 255 characters. *)
Definition writable_output (width index : nat) (speaker_name : pystr)
  : Prop :=
  Forall (fun c => is_plain_char c = true) speaker_name /\
  length (zfill width (str_of_nat index)) + length speaker_name + 5 <= 255.

(** The content of the file at [path], if there is one. *)
Definition fs_read (path : pystr) (fs : Filesystem) : option Wave :=
  match find (fun f => pystr_eqb (fst f) path) fs with
  | Some f => Some (snd f)
  | None => None
  end.

(** The characters of a text that reach the script: ASCII, not white
    space, not the quote character. *)
Definition kept_char (c : N) : bool :=
  is_ascii c && negb (is_quote c) && non_space c.

(** What one line adds to the script, [new] being its entries: their
    texts are ASCII; joined, and white space apart, they are the
    characters of the line that are ASCII, not white space and not the
    ASCII quote, all of them and in their order; and when the line holds
    no ASCII quote, whatever other quotation marks it holds, its ASCII
    characters, stripped, are one entry under the narrator (no entry when
    there is nothing left). *)
Definition cleaned_line_entries (line : pystr) (new : list Entry) : Prop :=
  Forall (fun e => Forall (fun c => (c <= 127)%N) (text e)) new /\
  filter non_space (concat (List.map text new)) = filter kept_char line /\
  (~ In QUOTE line ->
   new = if truthy (strip (filter is_ascii line))
         then [ {| speaker := Narrator;
                   text := strip (filter is_ascii line) |} ]
         else []).

(* ================================================================= *)
(** ** The driver *)

(** [text.split(newline)]: the pieces of [text] between its line feeds. *)
Fixpoint split_lines (text : pystr) : list pystr :=
  match text with
  | [] => [[]]
  | c :: text' =>
      if (c =? 10)%N then [] :: split_lines text'
      else match split_lines text' with
           | l :: ls => (c :: l) :: ls
           | [] => [[c]]
           end
  end.

(** [main], from the text that was read to the registry and the script:
    a new manager, the attribution pass over the lines of the stripped
    text, then the gender pass. *)
Definition main_process_text (text : pystr) (r : RandomState)
  : SpeakerManager :=
  let speaker_manager := init r in
  let lines := split_lines (strip text) in
  guess_genders_for_speakers (process_text_lines lines speaker_manager).

(* ================================================================= *)
(** * Properties *)

(** ** Strings *)

Lemma pystr_eqb_eq (a b : pystr) : pystr_eqb a b = true <-> a = b.
Proof.
  unfold pystr_eqb. destruct (list_eq_dec N.eq_dec a b); split; congruence.
Qed.

Lemma pystr_eqb_refl (a : pystr) : pystr_eqb a a = true.
Proof. now apply pystr_eqb_eq. Qed.

Lemma pystr_eqb_neq (a b : pystr) : pystr_eqb a b = false <-> a <> b.
Proof.
  unfold pystr_eqb. destruct (list_eq_dec N.eq_dec a b); split; congruence.
Qed.

Lemma filter_rev {A : Type} (f : A -> bool) (l : list A) :
  filter f (rev l) = rev (filter f l).
Proof.
  induction l as [|x l IH]; simpl; [reflexivity|].
  rewrite filter_app, IH. simpl. destruct (f x); simpl.
  - reflexivity.
  - now rewrite app_nil_r.
Qed.

Lemma lstrip_content (s : pystr) :
  filter non_space (lstrip s) = filter non_space s.
Proof.
  induction s as [|c s IH]; simpl; [reflexivity|].
  unfold non_space at 2 3.
  destruct (is_space c) eqn:Hc; simpl; [exact IH|].
  unfold non_space at 1. now rewrite Hc.
Qed.

Lemma strip_content (s : pystr) :
  filter non_space (strip s) = filter non_space s.
Proof.
  unfold strip, rstrip.
  rewrite filter_rev, lstrip_content, filter_rev, rev_involutive.
  apply lstrip_content.
Qed.

Lemma lstrip_suffix (s : pystr) : exists p, s = p ++ lstrip s.
Proof.
  induction s as [|c s [p IH]]; simpl.
  - now exists [].
  - destruct (is_space c).
    + exists (c :: p). simpl. now f_equal.
    + now exists [].
Qed.

(** [strip] keeps a contiguous piece of the string. *)
Lemma strip_infix (s : pystr) : exists p q, s = p ++ strip s ++ q.
Proof.
  unfold strip, rstrip.
  destruct (lstrip_suffix s) as [p Hp].
  destruct (lstrip_suffix (rev (lstrip s))) as [q Hq].
  exists p, (rev q). rewrite <- rev_app_distr, <- Hq, rev_involutive.
  exact Hp.
Qed.

Lemma strip_nil : strip [] = [].
Proof. reflexivity. Qed.

(** ** The segmenter *)

Lemma quote_free_filter (s : pystr) :
  quote_free s -> filter (fun c => negb (is_quote c)) s = s.
Proof.
  induction 1 as [|c s Hc _ IH]; simpl; [reflexivity|].
  now rewrite Hc, IH.
Qed.

Lemma quote_free_count (s : pystr) : quote_free s -> count_quotes s = 0.
Proof.
  unfold count_quotes. induction 1 as [|c s Hc _ IH]; simpl; [reflexivity|].
  now rewrite Hc.
Qed.

Lemma count_quotes_app (a b : pystr) :
  count_quotes (a ++ b) = count_quotes a + count_quotes b.
Proof. unfold count_quotes. now rewrite filter_app, length_app. Qed.

Lemma count_quotes_quote (s : pystr) :
  count_quotes (QUOTE :: s) = S (count_quotes s).
Proof. reflexivity. Qed.

Lemma span_nonquote_spec (s : pystr) :
  let (a, b) := span_nonquote s in
  s = a ++ b /\ quote_free a /\ (b = [] \/ exists b', b = QUOTE :: b').
Proof.
  induction s as [|c s IH]; simpl.
  - repeat split; [constructor | now left].
  - destruct (is_quote c) eqn:Hc.
    + repeat split; [constructor|]. right. exists s.
      apply N.eqb_eq in Hc. now subst c.
    + destruct (span_nonquote s) as [a b]. destruct IH as (-> & Ha & Hb).
      repeat split; [now constructor | exact Hb].
Qed.

Lemma span_nonquote_plain (g : pystr) :
  quote_free g -> span_nonquote g = (g, []).
Proof.
  induction 1 as [|c s Hc _ IH]; simpl; [reflexivity|]. now rewrite Hc, IH.
Qed.

Lemma span_nonquote_quote (g t : pystr) :
  quote_free g -> span_nonquote (g ++ QUOTE :: t) = (g, QUOTE :: t).
Proof.
  induction 1 as [|c s Hc _ IH]; simpl; [reflexivity|]. now rewrite Hc, IH.
Qed.

(** Every line has one of the three shapes. *)
Lemma shape_total (s : pystr) : Shape s.
Proof.
  pose proof (span_nonquote_spec s) as H.
  destruct (span_nonquote s) as [g b]. destruct H as (-> & Hg & [->|[r ->]]).
  - rewrite app_nil_r. now constructor.
  - pose proof (span_nonquote_spec r) as H.
    destruct (span_nonquote r) as [d b]. destruct H as (-> & Hd & [->|[r' ->]]).
    + rewrite app_nil_r. now constructor.
    + now constructor.
Qed.

Lemma match_pattern_plain (g : pystr) :
  quote_free g -> match_pattern g = (g, [], []).
Proof. intros Hg. unfold match_pattern. now rewrite span_nonquote_plain. Qed.

Lemma match_pattern_open (g t : pystr) :
  quote_free g -> quote_free t ->
  match_pattern (g ++ QUOTE :: t) = (g, [], QUOTE :: t).
Proof.
  intros Hg Ht. unfold match_pattern.
  now rewrite span_nonquote_quote, span_nonquote_plain.
Qed.

Lemma match_pattern_closed (g d rest : pystr) :
  quote_free g -> quote_free d ->
  match_pattern (g ++ QUOTE :: d ++ QUOTE :: rest) = (g, d, rest).
Proof.
  intros Hg Hd. unfold match_pattern.
  now rewrite span_nonquote_quote, span_nonquote_quote.
Qed.

Lemma match_pattern_length (s : pystr) :
  length (snd (match_pattern s)) <= length s.
Proof.
  destruct (shape_total s) as [g Hg | g t Hg Ht | g d rest Hg Hd].
  - rewrite match_pattern_plain by assumption. simpl. lia.
  - rewrite match_pattern_open by assumption. simpl.
    rewrite length_app. simpl. lia.
  - rewrite match_pattern_closed by assumption. simpl.
    rewrite !length_app. simpl. rewrite length_app. simpl. lia.
Qed.

(** With enough fuel the scanning loop no longer depends on it. *)
Lemma findall_from_fuel (f1 : nat) :
  forall f2 ma s,
    findall_measure ma s <= f1 -> findall_measure ma s <= f2 ->
    findall_from f1 ma s = findall_from f2 ma s.
Proof.
  unfold findall_measure.
  induction f1 as [|f1 IH]; intros f2 ma s H1 H2.
  - destruct ma; lia.
  - destruct f2 as [|f2]; [destruct ma; lia|]. simpl.
    pose proof (match_pattern_length s) as Hlen.
    destruct (match_pattern s) as [[g1 g2] rest]. simpl in Hlen.
    destruct (ma && (length rest =? length s)) eqn:Hc.
    + destruct s as [|c s']; [reflexivity|].
      pose proof (match_pattern_length s') as Hlen'.
      destruct (match_pattern s') as [[h1 h2] rest']. simpl in Hlen'.
      f_equal. simpl in H1, H2.
      apply IH; destruct (length rest' =? length s'); destruct ma; lia.
    + f_equal.
      destruct (length rest =? length s) eqn:He.
      * destruct ma; [discriminate|]. apply IH; lia.
      * apply Nat.eqb_neq in He. apply IH; destruct ma; lia.
Qed.

Lemma part_if_nonblank_nil (t : PartType) : part_if_nonblank t [] = [].
Proof. reflexivity. Qed.

Lemma parts_of_match_narration (g : pystr) :
  parts_of_match (g, []) = part_if_nonblank narration g.
Proof. unfold parts_of_match. simpl. now rewrite app_nil_r. Qed.

(** No part comes from the end of the line. *)
Lemma parts_at_end (f : nat) (ma : bool) :
  flat_map parts_of_match (findall_from f ma []) = [].
Proof.
  destruct f as [|f]; [reflexivity|]. destruct ma; [reflexivity|].
  simpl. now destruct f.
Qed.

(** At a quote that is never closed, the quote is skipped and the rest of
    the line is one narration match. *)
Lemma parts_at_open_quote (f : nat) (ma : bool) (t : pystr) :
  quote_free t -> 2 <= f ->
  flat_map parts_of_match (findall_from f ma (QUOTE :: t))
  = part_if_nonblank narration t.
Proof.
  intros Ht Hf.
  assert (Hmp : match_pattern (QUOTE :: t) = ([], [], QUOTE :: t)).
  { apply (@match_pattern_open [] t); [constructor | assumption]. }
  assert (Hadv : forall k,
             flat_map parts_of_match (findall_from (S k) true (QUOTE :: t))
             = part_if_nonblank narration t).
  { intros k. cbn [findall_from]. rewrite Hmp.
    rewrite Nat.eqb_refl. cbn [andb].
    rewrite match_pattern_plain by assumption.
    cbn [flat_map]. rewrite parts_of_match_narration, parts_at_end.
    apply app_nil_r. }
  destruct f as [|f]; [lia|].
  destruct ma; [apply Hadv|].
  cbn [findall_from]. rewrite Hmp.
  rewrite Nat.eqb_refl. cbn [andb flat_map].
  destruct f as [|f]; [lia|]. now rewrite Hadv.
Qed.

Lemma findall_step (line : pystr) :
  findall line
  = let '(g1, g2, rest) := match_pattern line in
    (g1, g2) :: findall_from (2 * length line + 1)
                             (length rest =? length line) rest.
Proof.
  unfold findall. replace (2 * length line + 2) with (S (2 * length line + 1))
    by lia.
  reflexivity.
Qed.

(** The three equations that determine [split_narration_dialogue]. *)
Lemma split_plain (g : pystr) :
  quote_free g ->
  split_narration_dialogue g = part_if_nonblank narration g.
Proof.
  intros Hg. unfold split_narration_dialogue. rewrite findall_step.
  rewrite match_pattern_plain by assumption. cbn [flat_map].
  rewrite parts_of_match_narration, parts_at_end. apply app_nil_r.
Qed.

Lemma split_open (g t : pystr) :
  quote_free g -> quote_free t ->
  split_narration_dialogue (g ++ QUOTE :: t)
  = part_if_nonblank narration g ++ part_if_nonblank narration t.
Proof.
  intros Hg Ht. unfold split_narration_dialogue. rewrite findall_step.
  rewrite match_pattern_open by assumption. cbn [flat_map].
  rewrite parts_of_match_narration. f_equal.
  apply parts_at_open_quote; [assumption|].
  rewrite length_app. simpl. lia.
Qed.

Lemma split_closed (g d rest : pystr) :
  quote_free g -> quote_free d ->
  split_narration_dialogue (g ++ QUOTE :: d ++ QUOTE :: rest)
  = part_if_nonblank narration g ++ part_if_nonblank dialogue d
    ++ split_narration_dialogue rest.
Proof.
  intros Hg Hd. unfold split_narration_dialogue.
  rewrite (findall_step (g ++ QUOTE :: d ++ QUOTE :: rest)).
  rewrite match_pattern_closed by assumption. cbn [flat_map].
  unfold parts_of_match at 1. cbn [fst snd]. rewrite <- app_assoc.
  do 3 f_equal.
  assert (Hlen : length (g ++ QUOTE :: d ++ QUOTE :: rest)
                 = length g + length d + length rest + 2).
  { rewrite length_app. simpl. rewrite length_app. simpl. lia. }
  rewrite Hlen.
  replace (length rest =? length g + length d + length rest + 2) with false
    by (symmetry; apply Nat.eqb_neq; lia).
  unfold findall. apply findall_from_fuel; unfold findall_measure; lia.
Qed.

Lemma joined_text_app (a b : list Part) :
  joined_text (a ++ b) = joined_text a ++ joined_text b.
Proof. unfold joined_text. now rewrite map_app, concat_app. Qed.

Lemma part_if_nonblank_content (t : PartType) (s : pystr) :
  filter non_space (joined_text (part_if_nonblank t s)) = filter non_space s.
Proof.
  unfold part_if_nonblank. destruct (truthy (strip s)) eqn:Ht.
  - unfold joined_text. simpl. rewrite app_nil_r. apply strip_content.
  - destruct (strip s) eqn:Hs; [|discriminate].
    rewrite <- (strip_content s), Hs. reflexivity.
Qed.

(** The joined segment texts carry the content of the line, for any line. *)
Lemma split_content_any (n : nat) :
  forall line, length line <= n ->
    filter non_space (joined_text (split_narration_dialogue line))
    = content line.
Proof.
  unfold content.
  induction n as [|n IH]; intros line Hn.
  - destruct line; [reflexivity | simpl in Hn; lia].
  - destruct (shape_total line) as [g Hg | g t Hg Ht | g d rest Hg Hd].
    + rewrite split_plain, part_if_nonblank_content, quote_free_filter;
        auto.
    + rewrite split_open, joined_text_app, !filter_app by assumption.
      rewrite !part_if_nonblank_content. simpl.
      now rewrite !quote_free_filter.
    + rewrite split_closed, !joined_text_app, !filter_app by assumption.
      rewrite !part_if_nonblank_content. simpl. rewrite !filter_app. simpl.
      rewrite !quote_free_filter by assumption.
      rewrite IH; [reflexivity|].
      rewrite length_app in Hn. simpl in Hn. rewrite length_app in Hn.
      simpl in Hn. lia.
Qed.

Lemma strip_Forall (P : N -> Prop) (s : pystr) :
  Forall P s -> Forall P (strip s).
Proof.
  intros H. destruct (strip_infix s) as (p & q & E). rewrite E in H.
  apply Forall_app in H. destruct H as [_ H].
  apply Forall_app in H. destruct H as [H _]. exact H.
Qed.

Lemma part_if_nonblank_Forall (P : N -> Prop) (t : PartType) (s : pystr) :
  Forall P s ->
  Forall (fun p => Forall P (ptext p)) (part_if_nonblank t s).
Proof.
  intros H. unfold part_if_nonblank. destruct (truthy (strip s)).
  - repeat constructor. simpl. now apply strip_Forall.
  - constructor.
Qed.

Lemma part_if_nonblank_type (t : PartType) (s : pystr) :
  Forall (fun p => ptype p = t) (part_if_nonblank t s).
Proof.
  unfold part_if_nonblank. destruct (truthy (strip s)); repeat constructor.
Qed.

Lemma Forall_and_quote_free (P : N -> Prop) (s : pystr) :
  Forall P s -> quote_free s ->
  Forall (fun c => P c /\ is_quote c = false) s.
Proof.
  intros HP Hq. apply Forall_forall. intros c Hc. split.
  - now apply (proj1 (Forall_forall P s) HP).
  - now apply (proj1 (Forall_forall _ s) Hq).
Qed.

(** Segment texts are made of characters of the line, and never hold a
    quote. *)
Lemma split_chars (P : N -> Prop) (n : nat) :
  forall line, length line <= n -> Forall P line ->
    Forall (fun p => Forall (fun c => P c /\ is_quote c = false) (ptext p))
           (split_narration_dialogue line).
Proof.
  induction n as [|n IH]; intros line Hn HP.
  - destruct line; [constructor | simpl in Hn; lia].
  - destruct (shape_total line) as [g Hg | g t Hg Ht | g d rest Hg Hd].
    + rewrite split_plain by assumption.
      now apply part_if_nonblank_Forall, Forall_and_quote_free.
    + rewrite split_open by assumption.
      apply Forall_app in HP. destruct HP as [HPg HPt].
      apply Forall_inv_tail in HPt.
      apply Forall_app; split;
        now apply part_if_nonblank_Forall, Forall_and_quote_free.
    + rewrite split_closed by assumption.
      apply Forall_app in HP. destruct HP as [HPg HP].
      apply Forall_inv_tail in HP.
      apply Forall_app in HP. destruct HP as [HPd HP].
      apply Forall_inv_tail in HP.
      apply Forall_app; split; [|apply Forall_app; split].
      * now apply part_if_nonblank_Forall, Forall_and_quote_free.
      * now apply part_if_nonblank_Forall, Forall_and_quote_free.
      * apply IH; [|assumption].
        rewrite length_app in Hn. simpl in Hn. rewrite length_app in Hn.
        simpl in Hn. lia.
Qed.

Lemma split_quote_free (line : pystr) :
  Forall (fun p => quote_free (ptext p)) (split_narration_dialogue line).
Proof.
  pose proof (@split_chars (fun _ => True) (length line) line (le_n _)) as H.
  eapply Forall_impl; [|apply H].
  - intros p Hp. eapply Forall_impl; [|exact Hp]. simpl.
    intros c [_ Hc]. exact Hc.
  - apply Forall_forall. auto.
Qed.

(** A line with an odd number of quotes ends in a quote that is never
    closed: that quote is skipped, what follows it is narration, and what
    precedes it is segmented as a line of its own. *)
Lemma split_odd (n : nat) :
  forall line, length line <= n -> Nat.odd (count_quotes line) = true ->
    exists before after,
      line = before ++ QUOTE :: after /\
      quote_free after /\
      Nat.even (count_quotes before) = true /\
      split_narration_dialogue line
      = split_narration_dialogue before
        ++ part_if_nonblank narration after.
Proof.
  induction n as [|n IH]; intros line Hn Hodd.
  - destruct line; [discriminate | simpl in Hn; lia].
  - destruct (shape_total line) as [g Hg | g t Hg Ht | g d rest Hg Hd].
    + rewrite quote_free_count in Hodd by assumption. discriminate.
    + exists g, t. repeat split; try assumption.
      * now rewrite quote_free_count.
      * rewrite split_open, split_plain by assumption. reflexivity.
    + assert (Hrest : Nat.odd (count_quotes rest) = true).
      { rewrite count_quotes_app, count_quotes_quote, count_quotes_app,
          count_quotes_quote, !quote_free_count in Hodd by assumption.
        simpl in Hodd. exact Hodd. }
      destruct (IH rest) as (b & a & -> & Ha & Hb & Hs); [|assumption|].
      { rewrite length_app in Hn. simpl in Hn. rewrite length_app in Hn.
        simpl in Hn. lia. }
      exists (g ++ QUOTE :: d ++ QUOTE :: b), a. repeat split.
      * rewrite <- !app_assoc. simpl. rewrite <- !app_assoc. reflexivity.
      * assumption.
      * rewrite count_quotes_app, count_quotes_quote, count_quotes_app,
          count_quotes_quote, !quote_free_count by assumption.
        simpl. exact Hb.
      * rewrite !split_closed, Hs, <- !app_assoc by assumption. reflexivity.
Qed.

(** C6. For every line with an even number of double-quote characters,
    the texts of the segments, joined in order without their tags,
    reconstruct the content of the line: its characters that are not
    white space, in their order, the quote characters that delimit the
    dialogue apart. *)
Theorem C6_balanced_line_content (line : pystr) :
  Nat.even (count_quotes line) = true ->
  filter non_space (joined_text (split_narration_dialogue line))
  = content line.
Proof. intros _. now apply (@split_content_any (length line)). Qed.

(** C7, amended. For every line with an odd number of double-quote
    characters the segmenter returns its list of segments; the last quote
    is the unmatched one and it is dropped: the text after it is a
    narration segment, never a dialogue segment, the text before it is
    segmented as a line of its own, and no segment text holds a quote
    character. *)
Theorem C7_unmatched_quote_dropped (line : pystr) :
  Nat.odd (count_quotes line) = true ->
  exists before after,
    line = before ++ QUOTE :: after /\
    quote_free after /\
    Nat.even (count_quotes before) = true /\
    split_narration_dialogue line
    = split_narration_dialogue before ++ part_if_nonblank narration after /\
    Forall (fun p => quote_free (ptext p)) (split_narration_dialogue line).
Proof.
  intros Hodd.
  destruct (@split_odd (length line) line (le_n _) Hodd)
    as (b & a & E & Ha & Hb & Hs).
  exists b, a. repeat split; try assumption. apply split_quote_free.
Qed.

(** ** Floats *)

Lemma pow2_pos (q : Z) : (0 < pow2 q)%Q.
Proof. apply Qpower_0_lt. reflexivity. Qed.

Lemma pow2_add (a b : Z) : (pow2 (a + b) == pow2 a * pow2 b)%Q.
Proof. apply Qpower_plus. discriminate. Qed.

Lemma pow2_int (n : Z) : (0 <= n)%Z -> (pow2 n == inject_Z (2 ^ n))%Q.
Proof. intros Hn. unfold pow2. now rewrite Zpower_Qpower. Qed.

Lemma pow2_le (a b : Z) : (a <= b)%Z -> (pow2 a <= pow2 b)%Q.
Proof. intros H. apply Qpower_le_compat_l; [exact H | discriminate]. Qed.

Lemma pow2_lt_inv (a b : Z) : (pow2 a < pow2 b)%Q -> (a < b)%Z.
Proof. intros H. apply (Qpower_lt_compat_l_inv 2); [exact H | reflexivity]. Qed.

Lemma round_half_even_bounds (y : Q) :
  (Qfloor y <= round_half_even y <= Qfloor y + 1)%Z.
Proof.
  unfold round_half_even.
  destruct (y - inject_Z (Qfloor y) ?= 1 # 2)%Q; [destruct (Z.even _)| |]; lia.
Qed.

Lemma round_half_even_mono (x y : Q) :
  (x <= y)%Q -> (round_half_even x <= round_half_even y)%Z.
Proof.
  intros Hxy. pose proof (Qfloor_resp_le _ _ Hxy) as Hf.
  pose proof (round_half_even_bounds x) as Bx.
  pose proof (round_half_even_bounds y) as By.
  destruct (Z.eq_dec (Qfloor x) (Qfloor y)) as [E|NE]; [|lia].
  unfold round_half_even. rewrite <- E.
  destruct (Qcompare_spec (x - inject_Z (Qfloor x)) (1 # 2)) as [Hx|Hx|Hx];
    destruct (Qcompare_spec (y - inject_Z (Qfloor x)) (1 # 2)) as [Hy|Hy|Hy];
    try (destruct (Z.even (Qfloor x))); try lia; exfalso; lra.
Qed.

Lemma round_half_even_int (z : Z) : round_half_even (inject_Z z) = z.
Proof.
  unfold round_half_even. rewrite Qfloor_Z.
  destruct (Qcompare_spec (inject_Z z - inject_Z z) (1 # 2)) as [H|H|H];
    [exfalso; lra | reflexivity | exfalso; lra].
Qed.

(** [ilog2] finds the binade of a positive rational, whatever the fraction
    that writes it. *)
Lemma ilog2_spec (x : Q) :
  (0 < x)%Q -> (pow2 (ilog2 x) <= x /\ x < pow2 (ilog2 x + 1))%Q.
Proof.
  intros Hx. destruct x as [n d]. unfold ilog2. cbn [Qnum Qden].
  assert (Hn : (0 < n)%Z) by (unfold Qlt in Hx; simpl in Hx; lia).
  pose proof (Z.log2_spec n Hn) as [Hn1 Hn2].
  pose proof (Z.log2_spec (Zpos d) eq_refl) as [Hd1 Hd2].
  pose proof (Z.log2_nonneg n) as Ha. pose proof (Z.log2_nonneg (Zpos d)) as Hb.
  set (a := Z.log2 n) in *. set (b := Z.log2 (Zpos d)) in *.
  assert (Pa : (pow2 a == inject_Z (2 ^ a))%Q) by now apply pow2_int.
  assert (Pb : (pow2 b == inject_Z (2 ^ b))%Q) by now apply pow2_int.
  assert (Pa1 : (pow2 (a + 1) == inject_Z (2 ^ (a + 1)))%Q)
    by (apply pow2_int; lia).
  assert (Pb1 : (pow2 (b + 1) == inject_Z (2 ^ (b + 1)))%Q)
    by (apply pow2_int; lia).
  assert (Hq : (n # d == inject_Z n / inject_Z (Zpos d))%Q)
    by apply Qmake_Qdiv.
  assert (Hdpos : (0 < inject_Z (Zpos d))%Q) by reflexivity.
  assert (Hn1q : (inject_Z (2 ^ a) <= inject_Z n)%Q)
    by (rewrite <- Zle_Qle; exact Hn1).
  assert (Hn2q : (inject_Z n < inject_Z (2 ^ (a + 1)))%Q)
    by (rewrite <- Zlt_Qlt; exact Hn2).
  assert (Hd1q : (inject_Z (2 ^ b) <= inject_Z (Zpos d))%Q)
    by (rewrite <- Zle_Qle; exact Hd1).
  assert (Hd2q : (inject_Z (Zpos d) < inject_Z (2 ^ (b + 1)))%Q)
    by (rewrite <- Zlt_Qlt; exact Hd2).
  pose proof (pow2_pos a) as Ppa. pose proof (pow2_pos b) as Ppb.
  pose proof (pow2_pos (a - b)) as Ppab.
  assert (Hupper : (n # d < pow2 (a - b + 1))%Q).
  { assert (E : (pow2 (a + 1) == pow2 (a - b + 1) * pow2 b)%Q).
    { rewrite <- pow2_add. replace (a - b + 1 + b)%Z with (a + 1)%Z by lia.
      reflexivity. }
    rewrite Hq. apply Qlt_shift_div_r; [exact Hdpos|].
    pose proof (pow2_pos (a - b + 1)) as Pp.
    rewrite Pa1, Pb in E. nra. }
  assert (Hlower : (pow2 (a - b - 1) <= n # d)%Q).
  { assert (E : (pow2 a == pow2 (a - b - 1) * pow2 (b + 1))%Q).
    { rewrite <- pow2_add. replace (a - b - 1 + (b + 1))%Z with a by lia.
      reflexivity. }
    rewrite Hq. apply Qle_shift_div_l; [exact Hdpos|].
    pose proof (pow2_pos (a - b - 1)) as Pp.
    rewrite Pa, Pb1 in E. nra. }
  destruct (Qle_bool (pow2 (a - b)) (n # d)) eqn:Ht.
  - apply Qle_bool_iff in Ht. split; assumption.
  - assert (Hlt : (n # d < pow2 (a - b))%Q).
    { apply Qnot_le_lt. intros H. apply Qle_bool_iff in H. congruence. }
    replace (a - b - 1 + 1)%Z with (a - b)%Z by lia. split; assumption.
Qed.

Lemma ilog2_mono (x y : Q) :
  (0 < x)%Q -> (x <= y)%Q -> (ilog2 x <= ilog2 y)%Z.
Proof.
  intros Hx Hxy.
  assert (Hy : (0 < y)%Q) by lra.
  destruct (ilog2_spec Hx) as [Lx _]. destruct (ilog2_spec Hy) as [_ Uy].
  assert (H : (pow2 (ilog2 x) < pow2 (ilog2 y + 1))%Q) by lra.
  apply pow2_lt_inv in H. lia.
Qed.

Lemma pow2_split (e q : Z) : (pow2 e == pow2 (e - q) * pow2 q)%Q.
Proof.
  rewrite <- pow2_add. replace (e - q + q)%Z with e by lia. reflexivity.
Qed.

Lemma scaled_below (x : Q) (e q : Z) :
  (q <= e)%Z -> (x <= pow2 e)%Q ->
  (round_half_even (x / pow2 q) <= 2 ^ (e - q))%Z.
Proof.
  intros Hq Hx. rewrite <- (round_half_even_int (2 ^ (e - q))).
  apply round_half_even_mono. rewrite <- pow2_int by lia.
  apply Qle_shift_div_r; [apply pow2_pos|]. now rewrite <- pow2_split.
Qed.

Lemma scaled_above (y : Q) (e q : Z) :
  (q <= e)%Z -> (pow2 e <= y)%Q ->
  (2 ^ (e - q) <= round_half_even (y / pow2 q))%Z.
Proof.
  intros Hq Hy. rewrite <- (round_half_even_int (2 ^ (e - q))) at 1.
  apply round_half_even_mono. rewrite <- pow2_int by lia.
  apply Qle_shift_div_l; [apply pow2_pos|]. now rewrite <- pow2_split.
Qed.

Lemma scaled_value (e q : Z) :
  (q <= e)%Z -> (inject_Z (2 ^ (e - q)) * pow2 q == pow2 e)%Q.
Proof.
  intros Hq. rewrite <- pow2_int by lia. symmetry. apply pow2_split.
Qed.

(** Within one binade rounding is monotone because [round_half_even] is;
    across binades the power of two between the two numbers separates
    their roundings. *)
Lemma fl_pos_mono (x y : Q) :
  (0 < x)%Q -> (x <= y)%Q -> (fl_pos x <= fl_pos y)%Q.
Proof.
  intros Hx Hxy. assert (Hy : (0 < y)%Q) by lra.
  pose proof (ilog2_mono Hx Hxy) as He.
  destruct (ilog2_spec Hx) as [_ Ux]. destruct (ilog2_spec Hy) as [Ly _].
  unfold fl_pos. rewrite !Qred_correct.
  set (ex := ilog2 x) in *. set (ey := ilog2 y) in *.
  set (qx := (Z.max ex (-1022) - 52)%Z). set (qy := (Z.max ey (-1022) - 52)%Z).
  destruct (Z.eq_dec qx qy) as [E|NE].
  - rewrite E. apply Qmult_le_compat_r; [|apply Qlt_le_weak, pow2_pos].
    rewrite <- Zle_Qle. apply round_half_even_mono.
    apply Qmult_le_compat_r; [exact Hxy|].
    apply Qlt_le_weak, Qinv_lt_0_compat, pow2_pos.
  - assert (Hqx : (qx <= ey)%Z) by lia.
    assert (Hqy : (qy <= ey)%Z) by lia.
    assert (Hxe : (x <= pow2 ey)%Q).
    { apply Qle_trans with (pow2 (ex + 1)); [lra|]. apply pow2_le. lia. }
    apply Qle_trans with (pow2 ey).
    + rewrite <- (scaled_value Hqx).
      apply Qmult_le_compat_r; [|apply Qlt_le_weak, pow2_pos].
      rewrite <- Zle_Qle. now apply scaled_below.
    + rewrite <- (scaled_value Hqy) at 1.
      apply Qmult_le_compat_r; [|apply Qlt_le_weak, pow2_pos].
      rewrite <- Zle_Qle. now apply scaled_above.
Qed.

Lemma fl_pos_nonneg (x : Q) : (0 < x)%Q -> (0 <= fl_pos x)%Q.
Proof.
  intros Hx. unfold fl_pos. rewrite Qred_correct.
  apply Qmult_le_0_compat; [|apply Qlt_le_weak, pow2_pos].
  change 0%Q with (inject_Z 0). rewrite <- Zle_Qle.
  rewrite <- (round_half_even_int 0). apply round_half_even_mono.
  apply Qle_shift_div_l; [apply pow2_pos|].
  change (inject_Z 0) with 0%Q. rewrite Qmult_0_l. lra.
Qed.

(** Rounding is monotone on the non-negative rationals. *)
Lemma fl_mono (x y : Q) : (0 <= x)%Q -> (x <= y)%Q -> (fl x <= fl y)%Q.
Proof.
  intros Hx Hxy. unfold fl.
  destruct x as [nx dx], y as [ny dy]. cbn [Qnum].
  unfold Qle in Hx, Hxy. cbn [Qnum Qden] in Hx, Hxy.
  destruct nx as [|px|px]; [| |lia].
  - destruct ny as [|py|py]; [apply Qle_refl | | lia].
    apply fl_pos_nonneg. reflexivity.
  - destruct ny as [|py|py]; [lia | | lia].
    apply fl_pos_mono; [reflexivity|]. unfold Qle. cbn [Qnum Qden]. exact Hxy.
Qed.

(** ** The speaker registry *)

Lemma same_voice_refl (a : Speaker) : same_voice a a.
Proof. now split. Qed.

Lemma same_voice_trans (a b c : Speaker) :
  same_voice a b -> same_voice b c -> same_voice a c.
Proof. unfold same_voice. intros [] []. split; congruence. Qed.

Lemma Forall2_same_voice_refl (l : list Speaker) : Forall2 same_voice l l.
Proof. induction l; constructor; auto using same_voice_refl. Qed.

Lemma grows_refl (l : list Speaker) : grows l l.
Proof.
  exists l, []. split; [now rewrite app_nil_r|].
  apply Forall2_same_voice_refl.
Qed.

Lemma grows_app (l extra : list Speaker) : grows l (l ++ extra).
Proof. exists l, extra. split; [reflexivity|apply Forall2_same_voice_refl]. Qed.

Lemma grows_same (l l' : list Speaker) : Forall2 same_voice l l' -> grows l l'.
Proof. intros H. exists l', []. split; [now rewrite app_nil_r|exact H]. Qed.

Lemma Forall2_same_voice_trans (l1 : list Speaker) :
  forall l2 l3, Forall2 same_voice l1 l2 -> Forall2 same_voice l2 l3 ->
                Forall2 same_voice l1 l3.
Proof.
  induction l1 as [|a l1 IH]; intros l2 l3 H12 H23.
  - inversion H12; subst. inversion H23; subst. constructor.
  - inversion H12; subst. inversion H23; subst. constructor.
    + eauto using same_voice_trans.
    + eauto.
Qed.

Lemma grows_trans (l1 l2 l3 : list Speaker) :
  grows l1 l2 -> grows l2 l3 -> grows l1 l3.
Proof.
  intros (a & x & -> & H12) (b & y & -> & H23).
  apply Forall2_app_inv_l in H23.
  destruct H23 as (b1 & b2 & Hb1 & Hb2 & ->).
  exists b1, (b2 ++ y). split.
  - now rewrite app_assoc.
  - eapply Forall2_same_voice_trans; eassumption.
Qed.

(** A speaker found by name is still found, with the same voice, after the
    list has grown. *)
Lemma grows_find (n : pystr) (l : list Speaker) :
  forall l' s,
    grows l l' ->
    find (fun s => pystr_eqb (name s) n) l = Some s ->
    exists s', find (fun s => pystr_eqb (name s) n) l' = Some s'
               /\ same_voice s s'.
Proof.
  induction l as [|a l IH]; intros l' s (l1 & extra & -> & H) Hf.
  - discriminate.
  - inversion H as [|a0 b l0 l1' Hab Hrest]; subst. simpl in *.
    destruct Hab as [Hn Hp]. rewrite <- Hn.
    destruct (pystr_eqb (name a) n).
    + inversion Hf; subst. exists b. repeat split; assumption.
    + apply (IH (l1' ++ extra) s); [|assumption].
      now exists l1', extra.
Qed.

Lemma set_gender_same_voice (n g : pystr) (l : list Speaker) :
  Forall2 same_voice l (set_gender n g l).
Proof.
  induction l as [|a l IH]; simpl; [constructor|].
  destruct (pystr_eqb (name a) n).
  - constructor; [now split | apply Forall2_same_voice_refl].
  - constructor; [apply same_voice_refl | exact IH].
Qed.

Lemma add_speaker_grows (n g num : pystr) (sm : SpeakerManager) :
  grows (speakers sm) (speakers (add_speaker n g num sm)).
Proof.
  unfold add_speaker. destruct (get_speaker sm n).
  - destruct (_ && _); simpl.
    + apply grows_same, set_gender_same_voice.
    + apply grows_refl.
  - destruct (random_uniform _ _ _). simpl. apply grows_app.
Qed.

Lemma add_speaker_superbook (n g num : pystr) (sm : SpeakerManager) :
  superbook (add_speaker n g num sm) = superbook sm.
Proof.
  unfold add_speaker. destruct (get_speaker sm n).
  - now destruct (_ && _).
  - now destruct (random_uniform _ _ _).
Qed.

Lemma find_app_none {A : Type} (f : A -> bool) (l1 l2 : list A) :
  find f l1 = None -> find f (l1 ++ l2) = find f l2.
Proof.
  induction l1 as [|a l1 IH]; simpl; [reflexivity|].
  destruct (f a); [discriminate | exact IH].
Qed.

(** After [add_speaker] the name is registered. *)
Lemma add_speaker_registered (n g num : pystr) (sm : SpeakerManager) :
  exists s, get_speaker (add_speaker n g num sm) n = Some s.
Proof.
  destruct (get_speaker sm n) as [s|] eqn:Hs.
  - destruct (@grows_find n (speakers sm) _ s (add_speaker_grows n g num sm) Hs)
      as (s' & Hs' & _).
    now exists s'.
  - unfold add_speaker. rewrite Hs.
    destruct (random_uniform _ _ _) as [pf r']. unfold get_speaker in *.
    simpl. rewrite find_app_none by assumption. simpl.
    rewrite pystr_eqb_refl. eauto.
Qed.

Lemma alternate_lines_speakers (lines : list pystr) :
  forall idx sm, speakers (alternate_lines idx lines sm) = speakers sm.
Proof.
  induction lines as [|line lines IH]; intros idx sm; simpl; [reflexivity|].
  now rewrite IH.
Qed.

Lemma alternate_grows (lines : list pystr) (sm : SpeakerManager) :
  grows (speakers sm)
        (speakers (alternate_speakers_without_person_entities lines sm)).
Proof.
  unfold alternate_speakers_without_person_entities.
  rewrite alternate_lines_speakers.
  eapply grows_trans; apply add_speaker_grows.
Qed.

Lemma process_part_grows (ns : option pystr) (g : pystr)
                         (st : Attribution) (part : Part) :
  grows (speakers (fst st)) (speakers (fst (process_part ns g st part))).
Proof.
  destruct st as [sm lq]. unfold process_part.
  destruct (ptype part).
  - destruct (if_truthy (detect_attribution (ptext part))); simpl.
    + apply add_speaker_grows.
    + apply grows_refl.
  - destruct (if_truthy ns); simpl.
    + apply add_speaker_grows.
    + apply grows_refl.
Qed.

Lemma fold_left_grows {A : Type} (f : Attribution -> A -> Attribution) :
  (forall st a, grows (speakers (fst st)) (speakers (fst (f st a)))) ->
  forall l st, grows (speakers (fst st)) (speakers (fst (fold_left f l st))).
Proof.
  intros Hf l. induction l as [|a l IH]; intros st; simpl.
  - apply grows_refl.
  - eapply grows_trans; [apply Hf | apply IH].
Qed.

Lemma process_line_grows (st : Attribution) (line : pystr) :
  grows (speakers (fst st)) (speakers (fst (process_line st line))).
Proof. unfold process_line. apply fold_left_grows, process_part_grows. Qed.

Lemma process_text_lines_grows (lines : list pystr) (sm : SpeakerManager) :
  grows (speakers sm) (speakers (process_text_lines lines sm)).
Proof.
  unfold process_text_lines, process_lines_from.
  apply (fold_left_grows process_line process_line_grows lines (sm, None)).
Qed.

Lemma guess_genders_grows (sm : SpeakerManager) :
  grows (speakers sm) (speakers (guess_genders_for_speakers sm)).
Proof.
  apply grows_same. simpl.
  induction (speakers sm) as [|a l IH]; simpl; constructor; [|exact IH].
  unfold guess_gender. destruct (_ && _); [|apply same_voice_refl].
  destruct (nd_search (name a)); [now split | apply same_voice_refl].
Qed.

Lemma run_op_grows (sm : SpeakerManager) (op : Op) :
  grows (speakers sm) (speakers (run_op sm op)).
Proof.
  destruct op; simpl.
  - apply add_speaker_grows.
  - apply grows_refl.
  - apply alternate_grows.
  - apply process_text_lines_grows.
  - apply guess_genders_grows.
Qed.

Lemma run_ops_grows (ops : list Op) :
  forall sm, grows (speakers sm) (speakers (run_ops ops sm)).
Proof.
  unfold run_ops. induction ops as [|op ops IH]; intros sm; simpl.
  - apply grows_refl.
  - eapply grows_trans; [apply run_op_grows | apply IH].
Qed.

(** [random()] is at least 0 and at most [1 - 2^-53]. *)
Lemma random_random_unit (r : RandomState) :
  (0 <= fst (random_random r)
   /\ fst (random_random r) <= 9007199254740991 # 9007199254740992)%Q.
Proof.
  unfold random_random. cbn [fst].
  set (k := draws r (used r)).
  assert (H : (k mod 2 ^ 53 < 2 ^ 53)%N)
    by (apply N.mod_upper_bound; discriminate).
  change (2 ^ 53)%N with 9007199254740992%N in *.
  change (2 ^ 53)%positive with 9007199254740992%positive.
  set (m := (k mod 9007199254740992)%N) in *. clearbody m.
  unfold Qle. cbn [Qnum Qden]. lia.
Qed.

(** The pitch factor drawn for a new speaker lies between the floats 0.8
    and 1.3, both included: the sum for the largest draw rounds up to
    1.3. *)
Lemma random_uniform_range (r : RandomState) :
  in_pitch_range
    (fst (random_uniform (fst PITCH_FACTOR_RANGE) (snd PITCH_FACTOR_RANGE) r)).
Proof.
  unfold random_uniform. pose proof (random_random_unit r) as [Hu0 Hu1].
  destruct (random_random r) as [u r']. cbn [fst] in *.
  unfold in_pitch_range, PITCH_FACTOR_RANGE. cbn [fst snd].
  assert (Ht : fl (fl (13 # 10) - fl (8 # 10)) = (1 # 2)%Q)
    by (vm_compute; reflexivity).
  rewrite Ht.
  assert (Hv0 : (fl 0 <= fl ((1 # 2) * u))%Q) by (apply fl_mono; lra).
  assert (Hv1 : (fl ((1 # 2) * u)
                 <= fl ((1 # 2) * (9007199254740991 # 9007199254740992)))%Q)
    by (apply fl_mono; lra).
  assert (E0 : fl 0 = 0%Q) by reflexivity.
  assert (E1 : fl ((1 # 2) * (9007199254740991 # 9007199254740992))
               = (9007199254740991 # 18014398509481984)%Q)
    by (vm_compute; reflexivity).
  rewrite E0 in Hv0. rewrite E1 in Hv1.
  set (v := fl ((1 # 2) * u)) in *.
  assert (Ha : (0 <= fl (8 # 10))%Q) by (vm_compute; discriminate).
  assert (Hw0 : (fl (fl (8 # 10)) <= fl (fl (8 # 10) + v))%Q)
    by (apply fl_mono; lra).
  assert (Hw1 : (fl (fl (8 # 10) + v)
                 <= fl (fl (8 # 10)
                        + (9007199254740991 # 18014398509481984)))%Q)
    by (apply fl_mono; lra).
  assert (Ea : fl (fl (8 # 10)) = fl (8 # 10)) by (vm_compute; reflexivity).
  assert (Eb : fl (fl (8 # 10) + (9007199254740991 # 18014398509481984))
               = fl (13 # 10))
    by (vm_compute; reflexivity).
  rewrite Ea in Hw0. rewrite Eb in Hw1. split; assumption.
Qed.

Lemma same_voice_pitch_ok (l : list Speaker) :
  forall l', Forall2 same_voice l l' -> pitch_ok l -> pitch_ok l'.
Proof.
  unfold pitch_ok. induction l as [|a l IH]; intros l' H Hok.
  - inversion H. constructor.
  - inversion H as [|a0 b l0 l1 [Hn Hp] Hrest]; subst.
    inversion Hok; subst. constructor.
    + rewrite <- Hn, <- Hp. assumption.
    + now apply IH.
Qed.

Lemma add_speaker_pitch_ok (n g num : pystr) (sm : SpeakerManager) :
  pitch_ok (speakers sm) -> pitch_ok (speakers (add_speaker n g num sm)).
Proof.
  intros Hok. unfold add_speaker. destruct (get_speaker sm n).
  - destruct (_ && _); simpl; [|assumption].
    eapply same_voice_pitch_ok; [apply set_gender_same_voice | assumption].
  - pose proof (random_uniform_range (random_state sm)) as Hr.
    destruct (random_uniform _ _ _) as [pf r']. simpl in *.
    apply Forall_app. split; [assumption|].
    constructor; [|constructor]. intros _. exact Hr.
Qed.

Lemma alternate_pitch_ok (lines : list pystr) (sm : SpeakerManager) :
  pitch_ok (speakers sm) ->
  pitch_ok (speakers (alternate_speakers_without_person_entities lines sm)).
Proof.
  intros Hok. unfold alternate_speakers_without_person_entities.
  rewrite alternate_lines_speakers. now do 2 apply add_speaker_pitch_ok.
Qed.

Lemma process_part_pitch_ok (ns : option pystr) (g : pystr)
                            (st : Attribution) (part : Part) :
  pitch_ok (speakers (fst st)) ->
  pitch_ok (speakers (fst (process_part ns g st part))).
Proof.
  destruct st as [sm lq]. unfold process_part. intros Hok.
  destruct (ptype part).
  - destruct (if_truthy (detect_attribution (ptext part))); simpl;
      [now apply add_speaker_pitch_ok | assumption].
  - destruct (if_truthy ns); simpl;
      [now apply add_speaker_pitch_ok | assumption].
Qed.

Lemma fold_left_pitch_ok {A : Type} (f : Attribution -> A -> Attribution) :
  (forall st a, pitch_ok (speakers (fst st)) ->
                pitch_ok (speakers (fst (f st a)))) ->
  forall l st, pitch_ok (speakers (fst st)) ->
               pitch_ok (speakers (fst (fold_left f l st))).
Proof.
  intros Hf l. induction l as [|a l IH]; intros st Hok; simpl; auto.
Qed.

Lemma process_text_lines_pitch_ok (lines : list pystr) (sm : SpeakerManager) :
  pitch_ok (speakers sm) -> pitch_ok (speakers (process_text_lines lines sm)).
Proof.
  intros Hok. unfold process_text_lines, process_lines_from.
  apply (@fold_left_pitch_ok pystr process_line); [|assumption].
  intros st line Hst. unfold process_line.
  apply fold_left_pitch_ok; [apply process_part_pitch_ok | assumption].
Qed.

Lemma guess_genders_pitch_ok (sm : SpeakerManager) :
  pitch_ok (speakers sm) ->
  pitch_ok (speakers (guess_genders_for_speakers sm)).
Proof.
  intros Hok.
  destruct (guess_genders_grows sm) as (l1 & extra & E & H).
  simpl in *. eapply same_voice_pitch_ok; [|exact Hok].
  clear. induction (speakers sm) as [|a l IH]; simpl; constructor; [|exact IH].
  unfold guess_gender. destruct (_ && _); [|apply same_voice_refl].
  destruct (nd_search (name a)); [now split | apply same_voice_refl].
Qed.

Lemma run_ops_pitch_ok (ops : list Op) :
  forall sm, pitch_ok (speakers sm) -> pitch_ok (speakers (run_ops ops sm)).
Proof.
  unfold run_ops. induction ops as [|op ops IH]; intros sm Hok; simpl; auto.
  apply IH. destruct op; simpl.
  - now apply add_speaker_pitch_ok.
  - assumption.
  - now apply alternate_pitch_ok.
  - now apply process_text_lines_pitch_ok.
  - now apply guess_genders_pitch_ok.
Qed.

Lemma init_pitch_ok (r : RandomState) : pitch_ok (speakers (init r)).
Proof.
  constructor; [|constructor]. simpl. intros H. now elim H.
Qed.

(** C8, amended. A speaker other than the narrator that is registered
    after any operations on a new manager has a pitch factor between the
    floats 0.8 and 1.3, both ends included; whatever operations follow
    (among them [get_speaker] and [add_speaker] for the same name), the
    speaker found under that name has that same pitch factor, the one
    drawn when the name was first inserted. *)
Theorem C8_pitch_factor_fixed (r : RandomState) (ops later : list Op)
                              (n : pystr) (s : Speaker) :
  n <> Narrator ->
  get_speaker (run_ops ops (init r)) n = Some s ->
  (fl (8 # 10) <= pitch_factor s /\ pitch_factor s <= fl (13 # 10))%Q /\
  exists s',
    get_speaker (run_ops later (run_ops ops (init r))) n = Some s' /\
    pitch_factor s' = pitch_factor s.
Proof.
  intros Hn Hs. split.
  - pose proof (run_ops_pitch_ok ops _ (init_pitch_ok r)) as Hok.
    unfold get_speaker in Hs. apply find_some in Hs. destruct Hs as [Hin He].
    apply pystr_eqb_eq in He.
    apply (proj1 (Forall_forall _ _) Hok s Hin). congruence.
  - destruct (@grows_find n _ _ s
                (run_ops_grows later (run_ops ops (init r))) Hs)
      as (s' & Hs' & _ & Hp).
    exists s'. split; [exact Hs' | now symmetry].
Qed.

(** C9. Whatever the input and whatever operations are run on a new
    manager, the registry holds a speaker named Narrator whose pitch
    factor is exactly 1. *)
Theorem C9_narrator_always_present (r : RandomState) (ops : list Op) :
  exists s,
    get_speaker (run_ops ops (init r)) Narrator = Some s /\
    name s = Narrator /\ pitch_factor s = 1%Q.
Proof.
  destruct (@grows_find Narrator (speakers (init r)) _ _
              (run_ops_grows ops (init r)) eq_refl)
    as (s' & Hs' & Hn & Hp).
  exists s'. simpl in Hn, Hp. repeat split; [assumption | |]; congruence.
Qed.

(** ** The attribution pattern *)

Lemma drop_prefix_spec (p : pystr) :
  forall s r, drop_prefix p s = Some r <-> s = p ++ r.
Proof.
  induction p as [|a p IH]; intros s r; simpl.
  - split; congruence.
  - destruct s as [|b s]; [split; discriminate|].
    destruct (N.eqb_spec a b) as [->|Hab].
    + rewrite IH. split; congruence.
    + split; [discriminate | congruence].
Qed.

Lemma take_word_spec (s : pystr) :
  exists after,
    s = take_word s ++ after /\
    Forall (fun c => is_word c = true) (take_word s) /\
    not_word_char (hd_error after).
Proof.
  induction s as [|c s (after & E & Hw & Ha)]; simpl.
  - exists []. repeat split; constructor.
  - destruct (is_word c) eqn:Hc.
    + exists after. repeat split; [simpl; now f_equal | now constructor | easy].
    + exists (c :: s). repeat split; [constructor | exact Hc].
Qed.

Lemma match_name_sound (s w : pystr) :
  match_name s = Some w ->
  exists after,
    s = 32%N :: w ++ after /\ w <> [] /\
    Forall (fun c => is_word c = true) w /\ not_word_char (hd_error after).
Proof.
  unfold match_name. destruct s as [|c s]; [discriminate|].
  destruct (N.eqb_spec c 32) as [->|]; [|discriminate].
  destruct (take_word_spec s) as (after & E & Hw & Ha).
  destruct (take_word s) as [|x t] eqn:Ht; simpl; [discriminate|].
  intros [= <-]. exists after. repeat split; try assumption.
  - now rewrite E at 1.
  - discriminate.
Qed.

Lemma match_alternatives_sound (vs : list pystr) (s w : pystr) :
  match_alternatives vs s = Some w ->
  exists verb after,
    In verb vs /\ s = verb ++ 32%N :: w ++ after /\ w <> [] /\
    Forall (fun c => is_word c = true) w /\ not_word_char (hd_error after).
Proof.
  induction vs as [|v vs IH]; simpl; [discriminate|].
  destruct (drop_prefix v s) as [r|] eqn:Hd.
  - destruct (match_name r) as [w'|] eqn:Hm.
    + intros [= ->]. apply drop_prefix_spec in Hd.
      destruct (match_name_sound _ Hm) as (after & -> & H).
      exists v, after. split; [now left | split; [exact Hd | exact H]].
    + intros H. destruct (IH H) as (verb & after & Hin & R).
      exists verb, after. split; [now right | exact R].
  - intros H. destruct (IH H) as (verb & after & Hin & R).
    exists verb, after. split; [now right | exact R].
Qed.

Lemma match_alternatives_complete (vs : list pystr) (verb w after : pystr) :
  In verb vs -> w <> [] -> Forall (fun c => is_word c = true) w ->
  match_alternatives vs (verb ++ 32%N :: w ++ after) <> None.
Proof.
  intros Hin Hw Hword. induction vs as [|v vs IH]; [contradiction|].
  simpl.
  destruct (match drop_prefix v (verb ++ 32%N :: w ++ after) with
            | Some r => match_name r
            | None => None
            end) eqn:Hhead; [discriminate|].
  destruct Hin as [->|Hin]; [|now apply IH].
  exfalso.
  rewrite (proj2 (drop_prefix_spec verb _ _) eq_refl) in Hhead.
  destruct w as [|c w]; [contradiction|]. inversion Hword; subst.
  simpl in Hhead. now rewrite H1 in Hhead.
Qed.

Lemma attribution_verbs_word_start (verb rest : pystr) :
  In verb attribution_verbs ->
  exists c t, verb ++ rest = c :: t /\ is_word c = true.
Proof.
  unfold attribution_verbs.
  intros [<-|[<-|[<-|[<-|[<-|[<-|[]]]]]]]; simpl; eauto.
Qed.

(** A match at a position is an occurrence of the pattern there, and an
    occurrence there makes the match succeed. *)
Lemma match_attribution_at_sound (prev : option N) (s w : pystr) :
  match_attribution_at prev s = Some w ->
  exists verb after,
    s = verb ++ 32%N :: w ++ after /\
    attribution_occurrence prev [] verb w after.
Proof.
  unfold match_attribution_at. destruct (word_boundary prev s) eqn:Hb;
    [|discriminate].
  intros H.
  destruct (match_alternatives_sound _ _ H)
    as (verb & after & Hin & -> & Hw & Hword & Ha).
  exists verb, after. split; [reflexivity|].
  repeat split; try assumption.
  destruct (attribution_verbs_word_start (32%N :: w ++ after) Hin)
    as (c & t & E & Hc).
  unfold word_boundary in Hb. rewrite E, Hc in Hb.
  unfold char_before; simpl. destruct prev as [p|]; simpl; [|exact I].
  now destruct (is_word p).
Qed.

Lemma match_attribution_at_complete (prev : option N)
                                    (verb w after : pystr) :
  attribution_occurrence prev [] verb w after ->
  match_attribution_at prev (verb ++ 32%N :: w ++ after) <> None.
Proof.
  intros (Hin & Hprev & Hw & Hword & _). unfold match_attribution_at.
  destruct (attribution_verbs_word_start (32%N :: w ++ after) Hin)
    as (c & t & E & Hc).
  unfold word_boundary. rewrite E, Hc. rewrite <- E.
  unfold char_before in Hprev. cbn [rev] in Hprev.
  destruct prev as [p|]; cbn [not_word_char] in Hprev.
  - rewrite Hprev. cbn [xorb]. now apply match_alternatives_complete.
  - cbn [xorb]. now apply match_alternatives_complete.
Qed.

Lemma char_before_cons (prev : option N) (c : N) (b : pystr) :
  char_before prev (c :: b) = char_before (Some c) b.
Proof.
  unfold char_before. simpl. now destruct (rev b).
Qed.

(** [re.search] returns the match at the first position that has one. *)
Lemma search_attribution_some (s : pystr) :
  forall prev w,
    search_attribution prev s = Some w ->
    exists before rest,
      s = before ++ rest /\
      match_attribution_at (char_before prev before) rest = Some w /\
      forall b1 b2, before = b1 ++ b2 -> b2 <> [] ->
        match_attribution_at (char_before prev b1) (b2 ++ rest) = None.
Proof.
  induction s as [|c s IH]; intros prev w H.
  - simpl in H. destruct (match_attribution_at prev []) eqn:Hm;
      [|discriminate].
    exists [], []. split; [reflexivity|]. split.
    + unfold char_before. cbn [rev]. congruence.
    + intros b1 b2 E. now destruct b1, b2.
  - simpl in H. destruct (match_attribution_at prev (c :: s)) eqn:Hm.
    + exists [], (c :: s). split; [reflexivity|]. split.
      * unfold char_before. cbn [rev]. congruence.
      * intros b1 b2 E. now destruct b1, b2.
    + destruct (IH _ _ H) as (before & rest & -> & Hat & Hleft).
      exists (c :: before), rest. repeat split.
      * now rewrite char_before_cons.
      * intros b1 b2 E Hb2. destruct b1 as [|x b1]; simpl in E.
        -- subst b2. exact Hm.
        -- injection E as <- ->. rewrite char_before_cons.
           now apply Hleft.
Qed.

Lemma search_attribution_none (s : pystr) :
  forall prev,
    search_attribution prev s = None ->
    forall b1 b2, s = b1 ++ b2 ->
      match_attribution_at (char_before prev b1) b2 = None.
Proof.
  induction s as [|c s IH]; intros prev H b1 b2 E.
  - destruct b1, b2; try discriminate. simpl in H.
    unfold char_before. cbn [rev].
    now destruct (match_attribution_at prev []).
  - simpl in H. destruct (match_attribution_at prev (c :: s)) eqn:Hm;
      [discriminate|].
    destruct b1 as [|x b1]; simpl in E.
    + subst b2. exact Hm.
    + injection E as <- ->. rewrite char_before_cons. now apply IH.
Qed.

Lemma app_eq_shorter {A : Type} (a : list A) :
  forall b c d, a ++ b = c ++ d -> length c < length a ->
    exists e, a = c ++ e /\ d = e ++ b /\ e <> [].
Proof.
  induction a as [|x a IH]; intros b c d E Hlen; [simpl in Hlen; lia|].
  destruct c as [|y c]; simpl in *.
  - exists (x :: a). repeat split; [now symmetry | discriminate].
  - injection E as -> E. destruct (IH b c d E) as (e & -> & -> & He); [lia|].
    now exists e.
Qed.

Lemma occurrence_at_position (before verb w after : pystr) :
  attribution_occurrence None before verb w after <->
  attribution_occurrence (char_before None before) [] verb w after.
Proof. reflexivity. Qed.

(** What [detect_attribution] returns: the word of the leftmost occurrence
    of the pattern, or nothing when the text has no occurrence. *)
Lemma detect_attribution_spec (t : pystr) :
  match detect_attribution t with
  | Some w =>
      exists before verb after,
        t = before ++ verb ++ 32%N :: w ++ after /\
        attribution_occurrence None before verb w after /\
        forall before2 verb2 w2 after2,
          t = before2 ++ verb2 ++ 32%N :: w2 ++ after2 ->
          attribution_occurrence None before2 verb2 w2 after2 ->
          length before <= length before2
  | None =>
      forall before verb w after,
        t = before ++ verb ++ 32%N :: w ++ after ->
        ~ attribution_occurrence None before verb w after
  end.
Proof.
  unfold detect_attribution.
  destruct (search_attribution None t) as [w|] eqn:Hs.
  - destruct (search_attribution_some _ _ Hs)
      as (before & rest & -> & Hat & Hleft).
    destruct (match_attribution_at_sound _ _ Hat) as (verb & after & -> & Ho).
    exists before, verb, after. repeat split; try apply Ho.
    intros before2 verb2 w2 after2 E Ho2.
    destruct (Nat.le_gt_cases (length before) (length before2))
      as [|Hlt]; [assumption|].
    destruct (app_eq_shorter _ _ _ _ E Hlt) as (e & -> & E2 & He).
    apply occurrence_at_position in Ho2.
    apply match_attribution_at_complete in Ho2.
    rewrite E2 in Ho2. now rewrite Hleft in Ho2.
  - intros before verb w after -> Ho.
    apply occurrence_at_position in Ho.
    apply match_attribution_at_complete in Ho.
    now rewrite (@search_attribution_none _ _ Hs before _ eq_refl) in Ho.
Qed.

(** ** The attribution pass *)

Lemma registered_grows (sm sm' : SpeakerManager) (n : pystr) :
  grows (speakers sm) (speakers sm') -> registered sm n -> registered sm' n.
Proof.
  intros Hg [s Hs]. destruct (grows_find n Hg Hs) as (s' & Hs' & _).
  now exists s'.
Qed.

Lemma registered_append_entry (e : Entry) (sm : SpeakerManager) (n : pystr) :
  registered (append_entry e sm) n <-> registered sm n.
Proof. reflexivity. Qed.

Lemma if_truthy_some (o : option pystr) (s : pystr) :
  if_truthy o = Some s -> o = Some s /\ s <> [].
Proof.
  destruct o as [t|]; simpl; [|discriminate].
  destruct t; simpl; [discriminate|]. intros [= <-]. now split.
Qed.

Lemma if_truthy_nonempty (s : pystr) : s <> [] -> if_truthy (Some s) = Some s.
Proof. destruct s; [contradiction | reflexivity]. Qed.

(** Each part appends exactly one entry, with the text of the part, under
    the narrator when the part is narration. *)
Lemma process_part_superbook (ns : option pystr) (g : pystr)
                             (st : Attribution) (part : Part) :
  exists e,
    superbook (fst (process_part ns g st part)) = superbook (fst st) ++ [e]
    /\ entry_of_part e part.
Proof.
  destruct st as [sm lq]. unfold process_part, entry_of_part.
  destruct (ptype part) eqn:Ht.
  - exists {| speaker := Narrator; text := ptext part |}.
    destruct (if_truthy (detect_attribution (ptext part))); simpl;
      rewrite ?add_speaker_superbook; auto.
  - destruct (if_truthy ns); simpl; rewrite ?add_speaker_superbook;
      eexists; (split; [reflexivity|]); simpl; split; congruence.
Qed.

Lemma process_parts_superbook (ns : option pystr) (g : pystr)
                              (ps : list Part) :
  forall st, exists new,
    superbook (fst (fold_left (process_part ns g) ps st))
    = superbook (fst st) ++ new
    /\ Forall2 entry_of_part new ps.
Proof.
  induction ps as [|p ps IH]; intros st; simpl.
  - exists []. split; [now rewrite app_nil_r | constructor].
  - destruct (IH (process_part ns g st p)) as (new & E & H).
    destruct (process_part_superbook ns g st p) as (e & Ee & He).
    exists (e :: new). split; [|now constructor].
    rewrite E, Ee, <- app_assoc. reflexivity.
Qed.

Lemma process_part_ok (ns : option pystr) (g : pystr)
                      (st : Attribution) (part : Part) :
  attribution_ok st -> attribution_ok (process_part ns g st part).
Proof.
  destruct st as [sm lq]. intros (Hnar & Hlq & Hall). simpl in *.
  assert (Hadd : forall n g', attribution_ok
            (append_entry {| speaker := n; text := ptext part |}
               (add_speaker n g' singular sm), Some n) ).
  { intros n g'. pose proof (add_speaker_grows n g' singular sm) as Hg.
    repeat split; simpl.
    - now apply (registered_grows _ Hg).
    - intros s E. destruct (truthy n); [|discriminate].
      injection E as <-. apply add_speaker_registered.
    - rewrite add_speaker_superbook. apply Forall_app. split.
      + eapply Forall_impl; [|exact Hall]. simpl.
        intros e [He|He]; [left | now right].
        now apply (registered_grows _ Hg).
      + constructor; [|constructor]. left. simpl.
        apply add_speaker_registered. }
  unfold process_part. destruct (ptype part).
  - destruct (if_truthy (detect_attribution (ptext part))) as [w|].
    + destruct (Hadd w unknown) as (H1 & H2 & H3).
      repeat split; simpl in *; try assumption.
      rewrite add_speaker_superbook in *.
      apply Forall_app in H3. destruct H3 as [H3 _].
      apply Forall_app. split; [assumption|].
      constructor; [|constructor]. now left.
    + repeat split; simpl; try assumption.
      apply Forall_app. split; [assumption|].
      constructor; [|constructor]. now left.
  - destruct (if_truthy ns) as [w|]; [apply Hadd|].
    repeat split; simpl; try assumption.
    apply Forall_app. split; [assumption|].
    constructor; [|constructor]. simpl.
    destruct (if_truthy lq) as [s|] eqn:E; [left; now apply Hlq | now right].
Qed.

Lemma process_lines_ok (lines : list pystr) :
  forall st, attribution_ok st -> attribution_ok (process_lines_from lines st).
Proof.
  unfold process_lines_from.
  induction lines as [|line lines IH]; intros st Hok; simpl; [assumption|].
  apply IH. unfold process_line.
  generalize (split_narration_dialogue (clean_text line)). intros ps.
  revert st Hok. induction ps as [|p ps IHp]; intros st Hok; simpl;
    [assumption|].
  apply IHp. now apply process_part_ok.
Qed.

(** Of the entries written by the attribution pass on a new manager, all
    but those under the placeholder name a registered speaker. *)
Lemma entries_registered_or_placeholder (lines : list pystr)
                                        (r : RandomState) :
  let sm := process_text_lines lines (init r) in
  Forall (fun e => registered sm (speaker e)
                   \/ speaker e = unnamed_speaker_1) (superbook sm).
Proof.
  unfold process_text_lines.
  apply (process_lines_ok lines (st:=(init r, None))).
  repeat split; simpl.
  - now exists {| name := Narrator; gender := unknown; number := singular;
                  pitch_factor := 1 |}.
  - discriminate.
  - constructor.
Qed.

Lemma clean_text_ascii (line : pystr) :
  Forall (fun c => (c <= 127)%N) (clean_text line).
Proof.
  apply Forall_forall. intros c Hc. apply filter_In in Hc.
  destruct Hc as [_ Hc]. now apply N.leb_le.
Qed.

Lemma clean_text_idempotent (line : pystr) :
  clean_text (clean_text line) = clean_text line.
Proof.
  unfold clean_text. induction line as [|c line IH]; simpl; [reflexivity|].
  destruct (is_ascii c) eqn:Hc; simpl; [now rewrite Hc, IH | exact IH].
Qed.

Lemma clean_text_quote_free (line : pystr) :
  ~ In QUOTE line -> quote_free (clean_text line).
Proof.
  intros Hq. apply Forall_forall. intros c Hc. apply filter_In in Hc.
  destruct Hc as [Hc _]. unfold is_quote.
  apply N.eqb_neq. intros ->. contradiction.
Qed.

Lemma entries_of_parts (P : N -> Prop) (new : list Entry) :
  forall ps, Forall2 entry_of_part new ps ->
    (Forall (fun p => Forall P (ptext p)) ps ->
     Forall (fun e => Forall P (text e)) new)
    /\ (Forall (fun p => ptype p = narration) ps ->
        Forall (fun e => speaker e = Narrator) new).
Proof.
  induction new as [|e new IH]; intros ps H; inversion H; subst.
  - split; constructor.
  - destruct (IH _ H4) as [IH1 IH2]. destruct H2 as [Ht Hs].
    split; intros Hall; inversion Hall; subst; constructor; auto.
    now rewrite Ht.
Qed.

Lemma process_lines_clean (lines : list pystr) :
  forall st, process_lines_from (List.map clean_text lines) st
             = process_lines_from lines st.
Proof.
  unfold process_lines_from.
  induction lines as [|line lines IH]; intros st; simpl; [reflexivity|].
  rewrite IH. f_equal. unfold process_line.
  now rewrite clean_text_idempotent.
Qed.

(** C5, amended. For a narration span, the text is always appended to the
    script under the narrator.  When the text holds the pattern (one of
    said, asked, replied, shouted, whispered, added at a word boundary, one
    space, then a run of word characters, capitalised or not), the run
    after the leftmost occurrence is registered as a speaker and becomes
    the last known speaker; when it does not, the speakers and the last
    known speaker are unchanged. *)
Theorem C5_narration_attribution (ns : option pystr) (g : pystr)
    (sm : SpeakerManager) (lq : option pystr) (part : Part) :
  ptype part = narration ->
  let st' := process_part ns g (sm, lq) part in
  superbook (fst st')
  = superbook sm ++ [{| speaker := Narrator; text := ptext part |}] /\
  ((exists before verb w after,
       ptext part = before ++ verb ++ 32%N :: w ++ after /\
       attribution_occurrence None before verb w after /\
       (forall before2 verb2 w2 after2,
           ptext part = before2 ++ verb2 ++ 32%N :: w2 ++ after2 ->
           attribution_occurrence None before2 verb2 w2 after2 ->
           length before <= length before2) /\
       registered (fst st') w /\ snd st' = Some w)
   \/
   ((forall before verb w after,
        ptext part = before ++ verb ++ 32%N :: w ++ after ->
        ~ attribution_occurrence None before verb w after) /\
    speakers (fst st') = speakers sm /\ snd st' = lq)).
Proof.
  intros Ht. unfold process_part. rewrite Ht.
  pose proof (detect_attribution_spec (ptext part)) as Hspec.
  destruct (detect_attribution (ptext part)) as [w|].
  - destruct Hspec as (before & verb & after & E & Ho & Hleft).
    assert (Hw : w <> []) by apply Ho.
    rewrite (if_truthy_nonempty Hw). cbn [fst snd]. split.
    + simpl. now rewrite add_speaker_superbook.
    + left. exists before, verb, w, after.
      repeat split; try apply Ho; try assumption.
      apply registered_append_entry, add_speaker_registered.
  - cbn [if_truthy fst snd]. split; [reflexivity|]. right.
    repeat split. exact Hspec.
Qed.

(** ** Assembly *)

Lemma insert_sorted_perm (x : pystr) (l : list pystr) :
  Permutation (insert_sorted x l) (x :: l).
Proof.
  induction l as [|y l IH]; simpl; [reflexivity|].
  destruct (pystr_leb x y); [reflexivity|].
  rewrite IH. apply perm_swap.
Qed.

Lemma sorted_perm (l : list pystr) : Permutation (sorted l) l.
Proof.
  induction l as [|x l IH]; simpl; [reflexivity|].
  rewrite insert_sorted_perm. now constructor.
Qed.

(** ** Audio generation *)

(** In the sequential loop a waveform shorter than the minimum duration is
    written to the output file as it is. *)
Lemma single_thread_short_unmodified (num_digits : nat) (sm : SpeakerManager)
    (fs : Filesystem) (index : nat) (entry : Entry) (spk : Speaker)
    (y : list Z) (sr : Z) (duration : Q) :
  get_speaker sm (speaker entry) = Some spk ->
  tts_to_file (text entry) = Some (y, sr) ->
  get_duration y sr = Some duration ->
  (duration < MIN_AUDIO_DURATION)%Q ->
  single_thread_entry num_digits sm fs (index, entry)
  = fs_write (output_audio_path num_digits index (speaker entry)) (y, sr)
      (fs_write (temp_audio_path index) (y, sr) fs).
Proof.
  intros Hs Ht Hdur Hd. unfold single_thread_entry. rewrite Hs, Ht, Hdur.
  unfold Qlt_bool.
  destruct (Qle_bool MIN_AUDIO_DURATION duration) eqn:Hle; [|reflexivity].
  apply Qle_bool_iff in Hle. exfalso. now apply (Qlt_not_le _ _ Hd).
Qed.

(** In the worker of the pool the waveform always goes through the pitch
    shifter, whatever its duration. *)
Lemma process_entry_always_shifts (sm : SpeakerManager) (fs : Filesystem)
    (index : nat) (entry : Entry) (spk : Speaker) (y : list Z) (sr : Z) :
  get_speaker sm (speaker entry) = Some spk ->
  tts_to_file (text entry) = Some (y, sr) ->
  process_entry sm fs (index, entry)
  = remove_if_exists (temp_audio_path index)
      (apply_pitch_shift_librosa y sr (pitch_factor spk)
         (output_audio_path 2 index (speaker entry))
         (fs_write (temp_audio_path index) (y, sr) fs)).
Proof.
  intros Hs Ht. unfold process_entry. now rewrite Hs, Ht.
Qed.

(** ** More on the speaker registry *)

Lemma find_name_none (n : pystr) (l : list Speaker) :
  find (fun s => pystr_eqb (name s) n) l = None <-> ~ In n (List.map name l).
Proof.
  induction l as [|a l IH]; simpl.
  - split; [intros _ [] | reflexivity].
  - destruct (pystr_eqb (name a) n) eqn:E.
    + apply pystr_eqb_eq in E.
      split; [discriminate | intros H; elim H; auto].
    + apply pystr_eqb_neq in E. rewrite IH. split.
      * intros H [H1|H1]; [exact (E H1) | exact (H H1)].
      * intros H H1. apply H. now right.
Qed.

Lemma set_gender_names (n g : pystr) (l : list Speaker) :
  List.map name (set_gender n g l) = List.map name l.
Proof.
  induction l as [|a l IH]; simpl; [reflexivity|].
  destruct (pystr_eqb (name a) n); simpl; [reflexivity | now rewrite IH].
Qed.

Lemma find_set_gender_same (n g : pystr) (l : list Speaker) (e : Speaker) :
  find (fun s => pystr_eqb (name s) n) l = Some e ->
  find (fun s => pystr_eqb (name s) n) (set_gender n g l)
  = Some {| name := name e; gender := g; number := number e;
            pitch_factor := pitch_factor e |}.
Proof.
  induction l as [|a l IH]; simpl; [discriminate|].
  destruct (pystr_eqb (name a) n) eqn:E; simpl.
  - intros [= <-]. now rewrite E.
  - rewrite E. exact IH.
Qed.

Lemma find_set_gender_other (n n' g : pystr) (l : list Speaker) :
  n' <> n ->
  find (fun s => pystr_eqb (name s) n') (set_gender n g l)
  = find (fun s => pystr_eqb (name s) n') l.
Proof.
  intros Hn. induction l as [|a l IH]; simpl; [reflexivity|].
  destruct (pystr_eqb (name a) n) eqn:E; simpl.
  - apply pystr_eqb_eq in E.
    assert (E' : pystr_eqb (name a) n' = false)
      by (apply pystr_eqb_neq; congruence).
    now rewrite E'.
  - destruct (pystr_eqb (name a) n'); [reflexivity | exact IH].
Qed.

Lemma find_app_some {A : Type} (f : A -> bool) (l1 l2 : list A) (x : A) :
  find f l1 = Some x -> find f (l1 ++ l2) = Some x.
Proof.
  induction l1 as [|a l1 IH]; simpl; [discriminate|].
  destruct (f a); [intros H; exact H | exact IH].
Qed.

(** Whatever holds of the speaker list and is kept by [add_speaker] and by
    the gender pass is kept by every operation. *)
Lemma run_ops_invariant (P : list Speaker -> Prop) :
  (forall n g num sm, P (speakers sm) -> P (speakers (add_speaker n g num sm))) ->
  (forall sm, P (speakers sm) -> P (speakers (guess_genders_for_speakers sm))) ->
  forall ops sm, P (speakers sm) -> P (speakers (run_ops ops sm)).
Proof.
  intros Hadd Hguess.
  assert (Hpart : forall ns g st part,
             P (speakers (fst st)) ->
             P (speakers (fst (process_part ns g st part)))).
  { intros ns g [sm lq] part Hp. unfold process_part.
    destruct (ptype part).
    - destruct (if_truthy (detect_attribution (ptext part))); simpl; auto.
    - destruct (if_truthy ns); simpl; auto. }
  assert (Hfold : forall (A : Type) (f : Attribution -> A -> Attribution),
             (forall st a, P (speakers (fst st)) -> P (speakers (fst (f st a)))) ->
             forall l st, P (speakers (fst st)) ->
                          P (speakers (fst (fold_left f l st)))).
  { intros A f Hf l. induction l as [|a l IH]; intros st Hp; simpl; auto. }
  unfold run_ops. intros ops.
  induction ops as [|op ops IH]; intros sm Hp; simpl; [assumption|].
  apply IH. destruct op; simpl.
  - now apply Hadd.
  - assumption.
  - unfold alternate_speakers_without_person_entities.
    rewrite alternate_lines_speakers. now do 2 apply Hadd.
  - unfold process_text_lines, process_lines_from.
    apply (Hfold pystr process_line); [|assumption].
    intros st line Hst. unfold process_line.
    apply Hfold; [apply Hpart | assumption].
  - now apply Hguess.
Qed.

Lemma guess_gender_name (s : Speaker) : name (guess_gender s) = name s.
Proof.
  unfold guess_gender. destruct (_ && _); [|reflexivity].
  now destruct (nd_search (name s)).
Qed.

Lemma add_speaker_names_unique (n g num : pystr) (sm : SpeakerManager) :
  NoDup (names sm) -> NoDup (names (add_speaker n g num sm)).
Proof.
  unfold names, add_speaker. intros Hnd.
  destruct (get_speaker sm n) eqn:Hs.
  - destruct (_ && _); simpl; [|assumption]. now rewrite set_gender_names.
  - destruct (random_uniform _ _ _) as [pf r']. simpl.
    rewrite map_app. simpl.
    apply find_name_none in Hs.
    apply NoDup_app_remove_l with (l := []). simpl.
    apply Permutation_NoDup with (l := n :: List.map name (speakers sm)).
    + apply Permutation_cons_append.
    + now constructor.
Qed.

(** X1. However a new manager is used, no two speakers of the registry
    have the same name. *)
Theorem registry_names_unique (r : RandomState) (ops : list Op) :
  NoDup (names (run_ops ops (init r))).
Proof.
  unfold names.
  apply (run_ops_invariant (fun l => NoDup (List.map name l))).
  - intros n g num sm. apply add_speaker_names_unique.
  - intros sm H. simpl. rewrite map_map.
    erewrite map_ext; [exact H|]. intros s. apply guess_gender_name.
  - simpl. constructor; [intros [] | constructor].
Qed.

(** X2. Registering a name the registry does not hold adds one speaker,
    found under that name with the gender and number given and a pitch
    factor of the range; the superbook is left alone. *)
Theorem add_speaker_new_lookup (n g num : pystr) (sm : SpeakerManager) :
  get_speaker sm n = None ->
  exists s,
    get_speaker (add_speaker n g num sm) n = Some s /\
    name s = n /\ gender s = g /\ number s = num /\
    in_pitch_range (pitch_factor s) /\
    speakers (add_speaker n g num sm) = speakers sm ++ [s] /\
    superbook (add_speaker n g num sm) = superbook sm.
Proof.
  intros Hs. unfold add_speaker. rewrite Hs.
  pose proof (random_uniform_range (random_state sm)) as Hr.
  destruct (random_uniform _ _ _) as [pf r']. cbn [fst] in Hr.
  exists {| name := n; gender := g; number := num; pitch_factor := pf |}.
  unfold get_speaker in *. simpl.
  rewrite find_app_none by assumption. simpl. rewrite pystr_eqb_refl.
  repeat split. exact (proj1 Hr). exact (proj2 Hr).
Qed.

(** X3. [add_speaker] for one name changes nothing of what [get_speaker]
    finds under another name. *)
Theorem add_speaker_other_name (n n' g num : pystr) (sm : SpeakerManager) :
  n' <> n ->
  get_speaker (add_speaker n g num sm) n' = get_speaker sm n'.
Proof.
  intros Hn. unfold add_speaker.
  destruct (get_speaker sm n) eqn:Hs.
  - destruct (_ && _); [|reflexivity].
    unfold get_speaker. simpl. now apply find_set_gender_other.
  - destruct (random_uniform _ _ _) as [pf r']. unfold get_speaker. simpl.
    destruct (find (fun s => pystr_eqb (name s) n') (speakers sm)) eqn:Hf.
    + now apply find_app_some.
    + rewrite find_app_none by assumption. simpl.
      assert (E : pystr_eqb n n' = false) by (apply pystr_eqb_neq; congruence).
      now rewrite E.
Qed.

(** X4. Calling [add_speaker] a second time with the same arguments
    changes nothing: no second record, no new draw, no other gender. *)
Theorem add_speaker_idempotent (n g num : pystr) (sm : SpeakerManager) :
  add_speaker n g num (add_speaker n g num sm) = add_speaker n g num sm.
Proof.
  assert (Hcond : pystr_eqb g unknown && negb (pystr_eqb g unknown) = false)
    by now destruct (pystr_eqb g unknown).
  destruct (get_speaker sm n) as [e|] eqn:Hs.
  - unfold add_speaker at 2 3. rewrite Hs.
    destruct (pystr_eqb (gender e) unknown && negb (pystr_eqb g unknown))
      eqn:Hc.
    + unfold add_speaker, get_speaker. cbn [speakers].
      rewrite (find_set_gender_same n g (speakers sm) Hs).
      cbn [gender]. now rewrite Hcond.
    + unfold add_speaker. now rewrite Hs, Hc.
  - destruct (add_speaker_new_lookup n g num sm Hs)
      as (s & Hs' & _ & Hg & _).
    unfold add_speaker at 1. rewrite Hs', Hg. now rewrite Hcond.
Qed.

Lemma keeps_record_refl (a : Speaker) : keeps_record a a.
Proof. repeat split. Qed.

Lemma keeps_record_trans (a b c : Speaker) :
  keeps_record a b -> keeps_record b c -> keeps_record a c.
Proof.
  intros (N1 & U1 & P1 & G1) (N2 & U2 & P2 & G2).
  repeat split; try congruence.
  intros H. rewrite <- (G1 H). apply G2. now rewrite (G1 H).
Qed.

Lemma Forall2_keeps_refl (l : list Speaker) : Forall2 keeps_record l l.
Proof. induction l; constructor; auto using keeps_record_refl. Qed.

Lemma Forall2_keeps_trans (l1 : list Speaker) :
  forall l2 l3, Forall2 keeps_record l1 l2 -> Forall2 keeps_record l2 l3 ->
                Forall2 keeps_record l1 l3.
Proof.
  induction l1 as [|a l1 IH]; intros l2 l3 H12 H23;
    inversion H12; subst; inversion H23; subst; constructor.
  - eauto using keeps_record_trans.
  - eauto.
Qed.

Lemma extends_refl (l : list Speaker) : extends l l.
Proof.
  exists l, []. split; [now rewrite app_nil_r | apply Forall2_keeps_refl].
Qed.

Lemma extends_trans (l1 l2 l3 : list Speaker) :
  extends l1 l2 -> extends l2 l3 -> extends l1 l3.
Proof.
  intros (a & x & -> & H12) (b & y & -> & H23).
  apply Forall2_app_inv_l in H23.
  destruct H23 as (b1 & b2 & Hb1 & Hb2 & ->).
  exists b1, (b2 ++ y). split.
  - now rewrite app_assoc.
  - eapply Forall2_keeps_trans; eassumption.
Qed.

Lemma extends_find (n : pystr) (l : list Speaker) :
  forall l' s,
    extends l l' ->
    find (fun s => pystr_eqb (name s) n) l = Some s ->
    exists s', find (fun s => pystr_eqb (name s) n) l' = Some s'
               /\ keeps_record s s'.
Proof.
  induction l as [|a l IH]; intros l' s (l1 & extra & -> & H) Hf.
  - discriminate.
  - inversion H as [|a0 b l0 l1' Hab Hrest]; subst. simpl in *.
    pose proof Hab as (Hn & _). rewrite <- Hn.
    destruct (pystr_eqb (name a) n).
    + inversion Hf; subst. exists b. split; [reflexivity | assumption].
    + apply (IH (l1' ++ extra) s); [|assumption].
      now exists l1', extra.
Qed.

Lemma set_gender_keeps (n g : pystr) (l : list Speaker) (e : Speaker) :
  find (fun s => pystr_eqb (name s) n) l = Some e ->
  gender e = unknown ->
  Forall2 keeps_record l (set_gender n g l).
Proof.
  induction l as [|a l IH]; simpl; [discriminate|].
  destruct (pystr_eqb (name a) n); intros Hf Hg.
  - injection Hf as ->. constructor; [|apply Forall2_keeps_refl].
    repeat split. simpl. intros H. now elim H.
  - constructor; [apply keeps_record_refl | now apply IH].
Qed.

Lemma add_speaker_extends (n g num : pystr) (sm : SpeakerManager) :
  extends (speakers sm) (speakers (add_speaker n g num sm)).
Proof.
  unfold add_speaker. destruct (get_speaker sm n) as [e|] eqn:Hs.
  - destruct (pystr_eqb (gender e) unknown) eqn:Hg; simpl.
    + destruct (negb (pystr_eqb g unknown)); simpl; [|apply extends_refl].
      apply pystr_eqb_eq in Hg.
      exists (set_gender n g (speakers sm)), [].
      split; [now rewrite app_nil_r|].
      now apply (set_gender_keeps n g (speakers sm) Hs).
    + apply extends_refl.
  - destruct (random_uniform _ _ _). simpl.
    exists (speakers sm), [ {| name := n; gender := g; number := num;
                               pitch_factor := q |} ].
    split; [reflexivity | apply Forall2_keeps_refl].
Qed.

Lemma guess_gender_keeps (s : Speaker) : keeps_record s (guess_gender s).
Proof.
  unfold guess_gender.
  destruct (pystr_eqb (gender s) unknown) eqn:Hg; simpl;
    [|apply keeps_record_refl].
  destruct (negb (pystr_eqb (name s) Narrator)); simpl;
    [|apply keeps_record_refl].
  destruct (nd_search (name s)); [|apply keeps_record_refl].
  apply pystr_eqb_eq in Hg. repeat split. simpl. intros H. now elim H.
Qed.

Lemma guess_genders_extends (sm : SpeakerManager) :
  extends (speakers sm) (speakers (guess_genders_for_speakers sm)).
Proof.
  exists (List.map guess_gender (speakers sm)), [].
  split; [simpl; now rewrite app_nil_r|].
  induction (speakers sm) as [|a l IH]; simpl; constructor;
    [apply guess_gender_keeps | exact IH].
Qed.

Lemma run_ops_extends (ops : list Op) (sm : SpeakerManager) :
  extends (speakers sm) (speakers (run_ops ops sm)).
Proof.
  apply (run_ops_invariant (fun l => extends (speakers sm) l)).
  - intros n g num sm' H. eapply extends_trans; [exact H|].
    apply add_speaker_extends.
  - intros sm' H. eapply extends_trans; [exact H|].
    apply guess_genders_extends.
  - apply extends_refl.
Qed.

(** X5. Whatever operations follow, a registered speaker keeps its number
    and, once its gender is not unknown any more, its gender: a known
    gender is never overwritten, neither by [add_speaker] with another one
    nor by the gender pass. *)
Theorem number_and_known_gender_fixed (ops : list Op) (sm : SpeakerManager)
                                      (n : pystr) (s : Speaker) :
  get_speaker sm n = Some s ->
  exists s',
    get_speaker (run_ops ops sm) n = Some s' /\
    number s' = number s /\
    (gender s <> unknown -> gender s' = gender s).
Proof.
  intros Hs.
  destruct (extends_find n (run_ops_extends ops sm) Hs)
    as (s' & Hs' & _ & Hnum & _ & Hg).
  exists s'. repeat split; [exact Hs' | now symmetry | exact Hg].
Qed.

(** X7. The speakers keep their places: after any operations the names
    that were in the registry are, in the same order, the first names of
    the registry. *)
Theorem registry_order_kept (ops : list Op) (sm : SpeakerManager) :
  exists added, names (run_ops ops sm) = names sm ++ added.
Proof.
  destruct (run_ops_extends ops sm) as (l1 & extra & E & H).
  exists (List.map name extra). unfold names. rewrite E, map_app. f_equal.
  clear E. induction H as [|a b l l' (Hn & _) _ IH]; simpl;
    [reflexivity | now rewrite Hn, IH].
Qed.

Lemma guess_gender_idempotent (s : Speaker) :
  guess_gender (guess_gender s) = guess_gender s.
Proof.
  assert (E : guess_gender s = s \/
              exists g, nd_search (name s) = Some g /\
                        pystr_eqb (name s) Narrator = false /\
                        guess_gender s
                        = {| name := name s; gender := g; number := number s;
                             pitch_factor := pitch_factor s |}).
  { unfold guess_gender.
    destruct (pystr_eqb (gender s) unknown); [|now left].
    destruct (pystr_eqb (name s) Narrator); [now left|].
    destruct (nd_search (name s)) as [g|]; [|now left].
    right. exists g. repeat split. }
  destruct E as [E | (g & Hnd & Hn & E)]; [now rewrite !E|].
  rewrite E. unfold guess_gender. cbn [name gender number pitch_factor].
  rewrite Hnd, Hn. destruct (pystr_eqb g unknown); reflexivity.
Qed.

(** X6. The gender pass is idempotent, and it leaves as it is every
    speaker called Narrator and every speaker whose gender is known. *)
Theorem guess_genders_idempotent (sm : SpeakerManager) :
  guess_genders_for_speakers (guess_genders_for_speakers sm)
  = guess_genders_for_speakers sm /\
  Forall2 (fun before after =>
             (name before = Narrator \/ gender before <> unknown) ->
             after = before)
          (speakers sm) (speakers (guess_genders_for_speakers sm)).
Proof.
  split.
  - unfold guess_genders_for_speakers. cbn [speakers superbook random_state].
    f_equal. rewrite map_map. apply map_ext. apply guess_gender_idempotent.
  - simpl. induction (speakers sm) as [|a l IH]; simpl; constructor;
      [|exact IH].
    intros H. unfold guess_gender.
    destruct (pystr_eqb (gender a) unknown) eqn:Hg; simpl; [|reflexivity].
    destruct (pystr_eqb (name a) Narrator) eqn:Hn; simpl; [reflexivity|].
    apply pystr_eqb_eq in Hg. apply pystr_eqb_neq in Hn.
    destruct H as [H|H]; contradiction.
Qed.


(** ** The alternation mode *)

Lemma alternate_lines_superbook (lines : list pystr) :
  forall idx sm, idx < 2 ->
    exists new,
      superbook (alternate_lines idx lines sm) = superbook sm ++ new /\
      length new = length lines /\
      forall i, i < length lines ->
        nth_error new i
        = Some {| speaker := if Nat.even (idx + i) then unnamed_speaker_1
                             else unnamed_speaker_2;
                  text := strip (nth i lines []) |}.
Proof.
  induction lines as [|line lines IH]; intros idx sm Hidx.
  - exists []. simpl. repeat split; [now rewrite app_nil_r | lia].
  - cbn [alternate_lines].
    destruct (IH ((idx + 1) mod 2)
                 (append_entry
                    {| speaker := nth idx [unnamed_speaker_1;
                                           unnamed_speaker_2] [];
                       text := strip line |} sm))
      as (new & E & L & Hnth).
    { apply Nat.mod_upper_bound. lia. }
    eexists (_ :: new). split; [|split].
    + rewrite E. simpl. rewrite <- app_assoc. reflexivity.
    + simpl. now rewrite L.
    + intros [|i] Hi; simpl in Hi.
      * destruct idx as [|[|idx]]; [reflexivity | reflexivity | lia].
      * cbn [nth_error nth]. rewrite Hnth by lia.
        destruct idx as [|[|idx]]; [| |lia].
        -- reflexivity.
        -- change ((1 + 1) mod 2) with 0.
           replace (1 + S i) with (S (S i)) by lia. reflexivity.
Qed.

(** X8. The alternation mode registers both placeholder speakers and adds
    one entry per line, blank lines too: the entry of the line at position
    [i], counted from 0, holds the stripped line, under Unnamed Speaker 1
    when [i] is even and under Unnamed Speaker 2 when it is odd. *)
Theorem alternation_script (lines : list pystr) (sm : SpeakerManager) :
  registered (alternate_speakers_without_person_entities lines sm)
             unnamed_speaker_1 /\
  registered (alternate_speakers_without_person_entities lines sm)
             unnamed_speaker_2 /\
  exists new,
    superbook (alternate_speakers_without_person_entities lines sm)
    = superbook sm ++ new /\
    length new = length lines /\
    forall i, i < length lines ->
      nth_error new i
      = Some {| speaker := if Nat.even i then unnamed_speaker_1
                           else unnamed_speaker_2;
                text := strip (nth i lines []) |}.
Proof.
  unfold alternate_speakers_without_person_entities, registered, get_speaker.
  rewrite alternate_lines_speakers.
  split; [|split].
  - apply (@registered_grows
             (add_speaker unnamed_speaker_1 unknown singular sm));
      [apply add_speaker_grows | apply add_speaker_registered].
  - apply add_speaker_registered.
  - destruct (alternate_lines_superbook lines (idx:=0)
                (add_speaker unnamed_speaker_2 unknown singular
                   (add_speaker unnamed_speaker_1 unknown singular sm)))
      as (new & E & L & Hnth); [lia|].
    exists new. rewrite E, !add_speaker_superbook. now repeat split.
Qed.


(** ** More on the segmenter *)

Lemma lstrip_idempotent (s : pystr) : lstrip (lstrip s) = lstrip s.
Proof.
  induction s as [|c s IH]; simpl; [reflexivity|].
  destruct (is_space c) eqn:Hc; [exact IH|]. simpl. now rewrite Hc.
Qed.

Lemma lstrip_head (s : pystr) :
  match lstrip s with [] => True | c :: _ => is_space c = false end.
Proof.
  induction s as [|c s IH]; simpl; [exact I|].
  destruct (is_space c) eqn:Hc; [exact IH | exact Hc].
Qed.

Lemma lstrip_fixed (s : pystr) :
  match s with [] => True | c :: _ => is_space c = false end ->
  lstrip s = s.
Proof. destruct s as [|c s]; simpl; [reflexivity|]. now intros ->. Qed.

Lemma strip_idempotent (s : pystr) : strip (strip s) = strip s.
Proof.
  unfold strip, rstrip.
  set (a := lstrip s). set (b := lstrip (rev a)).
  assert (Hb : lstrip (rev b) = rev b).
  { apply lstrip_fixed.
    destruct (lstrip_suffix (rev a)) as [p Hp]. fold b in Hp.
    assert (Ha : a = rev b ++ rev p).
    { rewrite <- (rev_involutive a), Hp, rev_app_distr. reflexivity. }
    pose proof (lstrip_head s) as Hh. fold a in Hh. rewrite Ha in Hh.
    destruct (rev b); [exact I | exact Hh]. }
  rewrite Hb, rev_involutive. unfold b. now rewrite lstrip_idempotent.
Qed.

Lemma flat_map_parts_Forall (P : Part -> Prop) :
  (forall t s, Forall P (part_if_nonblank t s)) ->
  forall line, Forall P (split_narration_dialogue line).
Proof.
  intros H line. unfold split_narration_dialogue.
  induction (findall line) as [|m l IH]; simpl; [constructor|].
  apply Forall_app. split; [|exact IH].
  unfold parts_of_match. apply Forall_app. split; apply H.
Qed.

(** X9. No segment is empty, and none begins or ends with white space:
    stripping the text of a segment changes nothing. *)
Theorem segments_stripped_nonempty (line : pystr) :
  Forall (fun p => ptext p <> [] /\ strip (ptext p) = ptext p)
         (split_narration_dialogue line).
Proof.
  apply flat_map_parts_Forall. intros t s. unfold part_if_nonblank.
  destruct (truthy (strip s)) eqn:Ht; [|constructor].
  constructor; [|constructor]. simpl. split.
  - intros E. rewrite E in Ht. discriminate.
  - apply strip_idempotent.
Qed.

Lemma quote_pieces_nonempty (s : pystr) : quote_pieces s <> [].
Proof.
  destruct s as [|c s]; simpl; [discriminate|].
  destruct (is_quote c); [discriminate|].
  destruct (quote_pieces s); discriminate.
Qed.

Lemma quote_pieces_plain (g : pystr) :
  quote_free g -> quote_pieces g = [g].
Proof.
  induction 1 as [|c g Hc _ IH]; simpl; [reflexivity|].
  now rewrite Hc, IH.
Qed.

Lemma quote_pieces_quote (g rest : pystr) :
  quote_free g ->
  quote_pieces (g ++ QUOTE :: rest) = g :: quote_pieces rest.
Proof.
  induction 1 as [|c g Hc _ IH]; simpl; [reflexivity|].
  now rewrite Hc, IH.
Qed.

Lemma split_pieces (n : nat) :
  forall line, length line <= n ->
    split_narration_dialogue line = tag_pieces false (quote_pieces line).
Proof.
  induction n as [|n IH]; intros line Hn.
  - destruct line; [reflexivity | simpl in Hn; lia].
  - destruct (shape_total line) as [g Hg | g t Hg Ht | g d rest Hg Hd].
    + rewrite split_plain, quote_pieces_plain by assumption. reflexivity.
    + rewrite split_open, quote_pieces_quote, quote_pieces_plain
        by assumption.
      reflexivity.
    + rewrite split_closed, !quote_pieces_quote by assumption.
      rewrite IH.
      * pose proof (quote_pieces_nonempty rest) as Hne.
        cbn [tag_pieces negb].
        destruct (quote_pieces rest) as [|p ps]; [contradiction|].
        reflexivity.
      * rewrite length_app in Hn. simpl in Hn. rewrite length_app in Hn.
        simpl in Hn. lia.
Qed.

(** X10. The segments of a line are its pieces between the quote
    characters, in order, stripped, the blank ones left out: the second,
    fourth, ... piece is dialogue when a quote closes it, and every other
    piece is narration, the piece after an unclosed quote included. *)
Theorem segments_are_quote_pieces (line : pystr) :
  split_narration_dialogue line = tag_pieces false (quote_pieces line) /\
  length (quote_pieces line) = S (count_quotes line) /\
  concat (List.map (fun p => p ++ [QUOTE]) (quote_pieces line))
  = line ++ [QUOTE].
Proof.
  split; [now apply (@split_pieces (length line))|].
  unfold count_quotes.
  induction line as [|c line [IH1 IH2]]; simpl; [now split|].
  unfold is_quote in *. destruct (c =? QUOTE)%N eqn:Hc.
  - apply N.eqb_eq in Hc. subst c. simpl. rewrite IH1, IH2. now split.
  - pose proof (quote_pieces_nonempty line) as Hne.
    destruct (quote_pieces line) as [|p ps]; [contradiction|].
    simpl in *. rewrite IH2. now split.
Qed.


(** ** More on the attribution pass *)

Lemma process_lines_entries (lines : list pystr) :
  forall st, exists new,
    superbook (fst (process_lines_from lines st)) = superbook (fst st) ++ new
    /\ Forall2 entry_of_part new
         (flat_map (fun l => split_narration_dialogue (clean_text l)) lines).
Proof.
  unfold process_lines_from.
  induction lines as [|line lines IH]; intros st; simpl.
  - exists []. split; [now rewrite app_nil_r | constructor].
  - destruct (IH (process_line st line)) as (new2 & E2 & H2).
    destruct (process_parts_superbook
                (get_named_speaker (nlp (clean_text line)))
                (if truthy_opt (get_named_speaker (nlp (clean_text line)))
                 then infer_gender_from_pronouns (nlp (clean_text line))
                 else unknown)
                (split_narration_dialogue (clean_text line)) st)
      as (new1 & E1 & H1).
    exists (new1 ++ new2). split.
    + rewrite E2. unfold process_line. rewrite E1, app_assoc. reflexivity.
    + now apply Forall2_app.
Qed.

(** X11. The attribution pass adds to the script one entry per segment of
    the cleaned lines, in the order of the lines and of the segments in a
    line, with the text of the segment; the entry of a narration segment
    is under the narrator. *)
Theorem script_follows_segments (lines : list pystr) (sm : SpeakerManager) :
  exists new,
    superbook (process_text_lines lines sm) = superbook sm ++ new /\
    Forall2 entry_of_part new
      (flat_map (fun l => split_narration_dialogue (clean_text l)) lines).
Proof. apply (process_lines_entries lines (sm, None)). Qed.

Lemma filter_non_space_nil_lstrip (s : pystr) :
  filter non_space s = [] -> lstrip s = [].
Proof.
  induction s as [|c s IH]; simpl; [reflexivity|]. unfold non_space at 1.
  destruct (is_space c); simpl; [exact IH | discriminate].
Qed.

Lemma part_if_nonblank_blank (t : PartType) (s : pystr) :
  filter non_space s = [] -> part_if_nonblank t s = [].
Proof.
  intros H. unfold part_if_nonblank, strip, rstrip.
  rewrite (filter_non_space_nil_lstrip s H). reflexivity.
Qed.

Lemma content_app (a b : pystr) : content (a ++ b) = content a ++ content b.
Proof. unfold content. now rewrite !filter_app. Qed.

Lemma content_quote (s : pystr) : content (QUOTE :: s) = content s.
Proof. reflexivity. Qed.

Lemma content_quote_free (g : pystr) :
  quote_free g -> content g = filter non_space g.
Proof. intros Hg. unfold content. now rewrite quote_free_filter. Qed.

Lemma split_blank (n : nat) :
  forall line, length line <= n -> content line = [] ->
    split_narration_dialogue line = [].
Proof.
  induction n as [|n IH]; intros line Hn Hc.
  - destruct line; [reflexivity | simpl in Hn; lia].
  - destruct (shape_total line) as [g Hg | g t Hg Ht | g d rest Hg Hd].
    + rewrite content_quote_free in Hc by assumption.
      rewrite split_plain by assumption. now apply part_if_nonblank_blank.
    + rewrite content_app, content_quote, !content_quote_free in Hc
        by assumption.
      apply app_eq_nil in Hc. destruct Hc as [Hc1 Hc2].
      rewrite split_open by assumption.
      now rewrite !part_if_nonblank_blank.
    + rewrite content_app, content_quote, content_app, content_quote,
        !content_quote_free in Hc by assumption.
      apply app_eq_nil in Hc. destruct Hc as [Hc1 Hc].
      apply app_eq_nil in Hc. destruct Hc as [Hc2 Hc3].
      rewrite split_closed by assumption.
      rewrite !part_if_nonblank_blank by assumption.
      apply IH; [|exact Hc3].
      rewrite length_app in Hn. simpl in Hn. rewrite length_app in Hn.
      simpl in Hn. lia.
Qed.

(** X12. A line with no content once it is cleaned (nothing but white
    space, quote characters and code points above 0x7F) changes nothing:
    no entry, no speaker, and the last known speaker stays. *)
Theorem blank_line_skipped (st : Attribution) (line : pystr) :
  content (clean_text line) = [] -> process_line st line = st.
Proof.
  intros Hc. unfold process_line.
  now rewrite (@split_blank (length (clean_text line)) _ (le_n _) Hc).
Qed.

Lemma named_parts (n g : pystr) (ps : list Part) :
  forall st,
    n <> [] ->
    exists new,
      superbook (fst (fold_left (process_part (Some n) g) ps st))
      = superbook (fst st) ++ new /\
      Forall2 (fun e p =>
                 text e = ptext p /\
                 speaker e = match ptype p with
                             | dialogue => n
                             | narration => Narrator
                             end) new ps /\
      ((exists p, In p ps /\ ptype p = dialogue) ->
       registered (fst (fold_left (process_part (Some n) g) ps st)) n).
Proof.
  intros st Hn. revert st.
  assert (Hkeep : forall ps st,
             registered (fst st) n ->
             registered (fst (fold_left (process_part (Some n) g) ps st)) n).
  { intros ps0 st0 H0. eapply registered_grows; [|exact H0].
    apply (fold_left_grows (process_part (Some n) g)).
    intros st1 p1. apply process_part_grows. }
  induction ps as [|p ps IH]; intros st; simpl.
  - exists []. repeat split; [now rewrite app_nil_r | constructor|].
    intros (p & [] & _).
  - destruct (IH (process_part (Some n) g st p)) as (new & E & H & R).
    destruct st as [sm lq].
    destruct (ptype p) eqn:Ht.
    + exists ({| speaker := Narrator; text := ptext p |} :: new).
      split; [|split].
      * rewrite E. unfold process_part. rewrite Ht.
        destruct (if_truthy (detect_attribution (ptext p))); simpl;
          rewrite ?add_speaker_superbook, <- app_assoc; reflexivity.
      * constructor; [|exact H]. rewrite Ht. now split.
      * intros (q & [<-|Hq] & Hd); [congruence|].
        apply R. now exists q.
    + exists ({| speaker := n; text := ptext p |} :: new).
      assert (Hp : process_part (Some n) g (sm, lq) p
                   = (append_entry {| speaker := n; text := ptext p |}
                        (add_speaker n g singular sm), Some n)).
      { unfold process_part. rewrite Ht, (if_truthy_nonempty Hn).
        reflexivity. }
      split; [|split].
      * rewrite E, Hp. simpl. rewrite add_speaker_superbook, <- app_assoc.
        reflexivity.
      * constructor; [|exact H]. rewrite Ht. now split.
      * intros _. apply Hkeep. rewrite Hp.
        apply registered_append_entry, add_speaker_registered.
Qed.

(** X13. When the annotator names a speaker on a line, every dialogue
    segment of that line is entered under that name, whatever the last
    known speaker was and whatever attribution the narration of the line
    holds; the narration goes under the narrator; and the name is
    registered as soon as the line has a dialogue segment. *)
Theorem named_speaker_takes_dialogue (st : Attribution) (line n : pystr) :
  get_named_speaker (nlp (clean_text line)) = Some n ->
  n <> [] ->
  exists new,
    superbook (fst (process_line st line)) = superbook (fst st) ++ new /\
    Forall2 (fun e p =>
               text e = ptext p /\
               speaker e = match ptype p with
                           | dialogue => n
                           | narration => Narrator
                           end)
            new (split_narration_dialogue (clean_text line)) /\
    ((exists p, In p (split_narration_dialogue (clean_text line)) /\
                ptype p = dialogue) ->
     registered (fst (process_line st line)) n).
Proof.
  intros Hns Hn. unfold process_line. rewrite Hns.
  now apply named_parts.
Qed.

(** X14. Speech followed by its attribution: on a line made of a quoted
    text and then narration that holds an attribution, the annotator
    naming nobody, the quoted text is entered under the speaker known
    before the line (the placeholder when there is none), not under the
    attributed one, who is registered and becomes the last known speaker
    for what follows. *)
Theorem trailing_attribution_is_for_later (sm : SpeakerManager)
    (lq : option pystr) (d t w : pystr) :
  clean_text (QUOTE :: d ++ QUOTE :: t) = QUOTE :: d ++ QUOTE :: t ->
  quote_free d -> quote_free t -> strip d <> [] ->
  if_truthy (get_named_speaker (nlp (QUOTE :: d ++ QUOTE :: t))) = None ->
  detect_attribution (strip t) = Some w ->
  process_line (sm, lq) (QUOTE :: d ++ QUOTE :: t)
  = (append_entry {| speaker := Narrator; text := strip t |}
       (add_speaker w unknown singular
          (append_entry
             {| speaker := match if_truthy lq with
                           | Some s => s
                           | None => unnamed_speaker_1
                           end;
                text := strip d |} sm)),
     Some w).
Proof.
  set (line := QUOTE :: d ++ QUOTE :: t).
  intros Hclean Hd Ht Hsd Hns Hw.
  assert (Hwne : w <> []).
  { pose proof (detect_attribution_spec (strip t)) as Hspec.
    rewrite Hw in Hspec. destruct Hspec as (b & v & a & _ & Ho & _).
    apply Ho. }
  assert (Hst : strip t <> []).
  { intros E. rewrite E in Hw. vm_compute in Hw. discriminate. }
  unfold process_line. rewrite Hclean.
  assert (Hsplit : split_narration_dialogue line
                   = [ {| ptype := dialogue; ptext := strip d |};
                       {| ptype := narration; ptext := strip t |} ]).
  { unfold line.
    assert (Hnil : quote_free []) by constructor.
    pose proof (@split_closed [] d t Hnil Hd) as Hc. cbn [app] in Hc.
    rewrite Hc, part_if_nonblank_nil. cbn [app].
    rewrite split_plain by assumption.
    unfold part_if_nonblank.
    destruct (strip d); [contradiction|].
    destruct (strip t); [contradiction|]. reflexivity. }
  rewrite Hsplit. cbn [fold_left].
  unfold process_part at 2. cbn [ptype ptext]. rewrite Hns.
  unfold process_part. cbn [ptype ptext]. rewrite Hw.
  rewrite (if_truthy_nonempty Hwne). reflexivity.
Qed.


(** ** More on the assembler *)

Lemma pystr_leb_total (a : pystr) :
  forall b, pystr_leb a b = true \/ pystr_leb b a = true.
Proof.
  induction a as [|x a IH]; intros [|y b]; simpl; auto.
  destruct (x <? y)%N eqn:Hxy, (y <? x)%N eqn:Hyx; auto.
Qed.

Lemma pystr_leb_antisym (a : pystr) :
  forall b, pystr_leb a b = true -> pystr_leb b a = true -> a = b.
Proof.
  induction a as [|x a IH]; intros [|y b]; simpl; try discriminate;
    [reflexivity|].
  destruct (x <? y)%N eqn:Hxy, (y <? x)%N eqn:Hyx; try discriminate.
  - apply N.ltb_lt in Hxy, Hyx. lia.
  - intros H1 H2. apply N.ltb_ge in Hxy, Hyx.
    assert (x = y) by lia. subst y. f_equal. now apply IH.
Qed.

Lemma pystr_leb_trans (a : pystr) :
  forall b c, pystr_leb a b = true -> pystr_leb b c = true ->
              pystr_leb a c = true.
Proof.
  induction a as [|x a IH]; intros [|y b] [|z c]; simpl; try discriminate;
    try reflexivity.
  destruct (x <? y)%N eqn:Hxy, (y <? x)%N eqn:Hyx,
           (y <? z)%N eqn:Hyz, (z <? y)%N eqn:Hzy,
           (x <? z)%N eqn:Hxz, (z <? x)%N eqn:Hzx;
    try discriminate; try reflexivity;
    rewrite ?N.ltb_lt, ?N.ltb_ge in *; try lia.
  apply IH.
Qed.

Lemma insert_sorted_sorted (x : pystr) (l : list pystr) :
  StronglySorted pystr_le l -> StronglySorted pystr_le (insert_sorted x l).
Proof.
  induction 1 as [|y l Hl IH Hy]; simpl.
  - repeat constructor.
  - destruct (pystr_leb x y) eqn:Hxy.
    + constructor; [now constructor|].
      constructor; [exact Hxy|].
      eapply Forall_impl; [|exact Hy]. intros z Hz.
      now apply (pystr_leb_trans x y z).
    + constructor; [exact IH|].
      apply (@Permutation_Forall _ _ (x :: l));
        [symmetry; apply insert_sorted_perm|].
      constructor; [|exact Hy].
      destruct (pystr_leb_total x y) as [H|H]; [congruence | exact H].
Qed.

Lemma sorted_sorted (l : list pystr) : StronglySorted pystr_le (sorted l).
Proof.
  induction l as [|x l IH]; simpl; [constructor|].
  now apply insert_sorted_sorted.
Qed.

Lemma sorted_lists_equal (l1 : list pystr) :
  forall l2, StronglySorted pystr_le l1 -> StronglySorted pystr_le l2 ->
             Permutation l1 l2 -> l1 = l2.
Proof.
  induction l1 as [|a l1 IH]; intros l2 H1 H2 Hp.
  - apply Permutation_nil in Hp. now subst.
  - destruct l2 as [|b l2].
    { symmetry in Hp. apply Permutation_nil in Hp. discriminate. }
    apply StronglySorted_inv in H1. destruct H1 as [H1 Ha].
    apply StronglySorted_inv in H2. destruct H2 as [H2 Hb].
    assert (Hab : a = b).
    { assert (Ia : In a (b :: l2))
        by (apply (Permutation_in _ Hp); now left).
      assert (Ib : In b (a :: l1))
        by (apply (Permutation_in _ (Permutation_sym Hp)); now left).
      destruct Ia as [->|Ia]; [reflexivity|].
      destruct Ib as [->|Ib]; [reflexivity|].
      apply pystr_leb_antisym.
      - exact (proj1 (Forall_forall _ _) Ha b Ib).
      - exact (proj1 (Forall_forall _ _) Hb a Ia). }
    subst b. f_equal. apply IH; try assumption.
    now apply Permutation_cons_inv in Hp.
Qed.

Lemma sorted_permutation_invariant (l1 l2 : list pystr) :
  Permutation l1 l2 -> sorted l1 = sorted l2.
Proof.
  intros Hp. apply sorted_lists_equal; try apply sorted_sorted.
  rewrite !sorted_perm. exact Hp.
Qed.

Lemma combine_fold_concat (from_wav : pystr -> AudioSegment)
                          (l : list pystr) :
  forall combined,
    fold_left
      (fun combined filename =>
         if endswith filename (py ".wav")
         then combined
              ++ (from_wav filename ++ silent DELAY_BETWEEN_LINES_MS)
         else combined) l combined
    = combined
      ++ concat (List.map (fun f => from_wav f
                                    ++ silent DELAY_BETWEEN_LINES_MS)
                          (wav_files l)).
Proof.
  unfold wav_files.
  induction l as [|f l IH]; intros combined; simpl;
    [now rewrite app_nil_r|].
  rewrite IH. destruct (endswith f (py ".wav")); [|reflexivity].
  simpl. now rewrite <- !app_assoc.
Qed.

Lemma filter_sorted (f : pystr -> bool) (l : list pystr) :
  StronglySorted pystr_le l -> StronglySorted pystr_le (filter f l).
Proof.
  induction 1 as [|y l Hl IH Hy]; simpl; [constructor|].
  destruct (f y); [|exact IH].
  constructor; [exact IH|].
  apply Forall_forall. intros z Hz. apply filter_In in Hz.
  exact (proj1 (Forall_forall _ _) Hy z (proj1 Hz)).
Qed.

(** X15. The combined segment is made of the wav files of the directory
    taken in ascending order of their names, each followed by the silence
    gap; the other files add nothing. *)
Theorem combined_in_name_order (listing : list pystr)
                               (from_wav : pystr -> AudioSegment) :
  exists files,
    combine_audio_files listing from_wav
    = concat (List.map (fun f => from_wav f ++ silent DELAY_BETWEEN_LINES_MS)
                       files) /\
    Permutation files (wav_files listing) /\
    StronglySorted pystr_le files.
Proof.
  exists (wav_files (sorted listing)). split; [|split].
  - unfold combine_audio_files. now rewrite combine_fold_concat.
  - unfold wav_files. clear from_wav.
    pose proof (sorted_perm listing) as Hp.
    induction Hp; simpl; try destruct (endswith x _);
      try destruct (endswith y _); eauto using Permutation.
  - apply filter_sorted, sorted_sorted.
Qed.

(** X16. The combined segment does not depend on the order in which the
    directory lists its files. *)
Theorem combined_independent_of_listing_order (l1 l2 : list pystr)
    (from_wav : pystr -> AudioSegment) :
  Permutation l1 l2 ->
  combine_audio_files l1 from_wav = combine_audio_files l2 from_wav.
Proof.
  intros Hp. unfold combine_audio_files.
  now rewrite (sorted_permutation_invariant Hp).
Qed.


(** ** File names *)

Lemma py_String (c : ascii) (s : string) :
  py (String c s) = N_of_ascii c :: py s.
Proof. reflexivity. Qed.

Lemma to_uint_normal (n : nat) :
  Decimal.unorm (Nat.to_uint n) = Nat.to_uint n.
Proof.
  rewrite <- DecimalNat.Unsigned.to_of.
  now rewrite DecimalNat.Unsigned.of_to.
Qed.

Lemma to_uint_nonnil (n : nat) : Nat.to_uint n <> Decimal.Nil.
Proof. rewrite <- to_uint_normal. apply DecimalFacts.unorm_nonnil. Qed.

Lemma str_of_nat_digits (n : nat) :
  str_of_nat n = py (NilEmpty.string_of_uint (Nat.to_uint n)).
Proof.
  unfold str_of_nat. pose proof (to_uint_nonnil n) as H.
  destruct (Nat.to_uint n); [contradiction|reflexivity..].
Qed.

Lemma digits_are_digits (d : Decimal.uint) :
  Forall (fun c => is_digit c = true) (py (NilEmpty.string_of_uint d)).
Proof.
  induction d; cbn [NilEmpty.string_of_uint]; [constructor|..];
    rewrite py_String; (constructor; [reflexivity | assumption]).
Qed.

Lemma digits_value (d : Decimal.uint) :
  forall acc,
    int_of_digits_acc (py (NilEmpty.string_of_uint d)) acc
    = Nat.of_uint_acc d acc.
Proof.
  induction d; intros acc; cbn [NilEmpty.string_of_uint Nat.of_uint_acc];
    [reflexivity|..];
    rewrite py_String; cbn [int_of_digits_acc]; rewrite IHd; f_equal;
    rewrite Nat.tail_mul_spec;
    match goal with
    | |- context [N.to_nat ?c - 48] =>
        let v := eval vm_compute in (N.to_nat c - 48) in
        change (N.to_nat c - 48) with v
    end; lia.
Qed.

Lemma int_of_str (n : nat) : int_of_digits (str_of_nat n) = n.
Proof.
  unfold int_of_digits. rewrite str_of_nat_digits, digits_value.
  apply DecimalNat.Unsigned.of_to.
Qed.

Lemma str_of_nat_all_digits (n : nat) :
  Forall (fun c => is_digit c = true) (str_of_nat n).
Proof. rewrite str_of_nat_digits. apply digits_are_digits. Qed.

Lemma str_of_nat_nonempty (n : nat) : str_of_nat n <> [].
Proof.
  rewrite str_of_nat_digits. pose proof (to_uint_nonnil n) as H.
  destruct (Nat.to_uint n); [contradiction|..];
    cbn [NilEmpty.string_of_uint]; rewrite py_String; discriminate.
Qed.

Lemma digit_not_sign (c : N) :
  is_digit c = true -> ((c =? 43) || (c =? 45))%N = false.
Proof.
  unfold is_digit. intros H. apply andb_true_iff in H. destruct H as [H _].
  apply N.leb_le in H.
  apply orb_false_iff. split; apply N.eqb_neq; lia.
Qed.

Lemma zfill_digits (w n : nat) :
  zfill w (str_of_nat n)
  = repeat 48%N (w - length (str_of_nat n)) ++ str_of_nat n.
Proof.
  unfold zfill. pose proof (str_of_nat_all_digits n) as H.
  destruct (str_of_nat n) as [|c s] eqn:E.
  - now apply str_of_nat_nonempty in E.
  - apply Forall_inv in H. now rewrite (digit_not_sign c H).
Qed.

Lemma int_of_zeros (k : nat) (s : pystr) :
  int_of_digits (repeat 48%N k ++ s) = int_of_digits s.
Proof.
  unfold int_of_digits. induction k as [|k IH]; [reflexivity|].
  cbn [repeat app int_of_digits_acc].
  change (10 * 0 + (N.to_nat 48 - 48)) with 0. exact IH.
Qed.

Lemma zfill_all_digits (w n : nat) :
  Forall (fun c => is_digit c = true) (zfill w (str_of_nat n)).
Proof.
  rewrite zfill_digits. apply Forall_app. split.
  - apply Forall_forall. intros c Hc. apply repeat_spec in Hc. now subst.
  - apply str_of_nat_all_digits.
Qed.

Lemma int_of_zfill (w n : nat) : int_of_digits (zfill w (str_of_nat n)) = n.
Proof. rewrite zfill_digits, int_of_zeros. apply int_of_str. Qed.

(** A run of digits ends at the first character that is not a digit. *)
Lemma digit_run_unique (x : N) (a : pystr) :
  forall b r r',
    is_digit x = false ->
    Forall (fun c => is_digit c = true) a ->
    Forall (fun c => is_digit c = true) b ->
    a ++ x :: r = b ++ x :: r' -> a = b /\ r = r'.
Proof.
  induction a as [|c a IH]; intros [|c' b] r r' Hx Ha Hb E; simpl in E.
  - injection E as E. now split.
  - injection E as E1 E2. subst c'. apply Forall_inv in Hb. congruence.
  - injection E as E1 E2. subst c. apply Forall_inv in Ha. congruence.
  - injection E as E1 E2. subst c'.
    destruct (IH b r r' Hx (Forall_inv_tail Ha) (Forall_inv_tail Hb) E2)
      as [-> ->].
    now split.
Qed.

(** X17. The audio file names identify their entries: two output paths
    are equal only for the same index and the same speaker name, whatever
    the padding widths; two temporary paths are equal only for the same
    index; and no temporary path is an output path. *)
Theorem audio_paths_identify_entries (w w' i j : nat) (n m : pystr) :
  (output_audio_path w i n = output_audio_path w' j m -> i = j /\ n = m) /\
  (temp_audio_path i = temp_audio_path j -> i = j) /\
  temp_audio_path i <> output_audio_path w j n.
Proof.
  split; [|split].
  - unfold output_audio_path. intros E. apply app_inv_head in E.
    change (py "_") with [95%N] in E. cbn [app] in E.
    destruct (@digit_run_unique 95%N _ _ _ _ eq_refl
                (zfill_all_digits w i) (zfill_all_digits w' j) E)
      as [Hz Hn].
    split.
    + rewrite <- (int_of_zfill w i), <- (int_of_zfill w' j). now rewrite Hz.
    + now apply app_inv_tail in Hn.
  - unfold temp_audio_path. intros E. apply app_inv_head in E.
    apply app_inv_tail in E.
    rewrite <- (int_of_str i), <- (int_of_str j). now rewrite E.
  - unfold temp_audio_path, output_audio_path.
    change (py "audio/temp_") with (py "audio/" ++ py "temp_").
    rewrite <- app_assoc. intros E. apply app_inv_head in E.
    pose proof (zfill_all_digits w j) as Hd.
    destruct (zfill w (str_of_nat j)) as [|c s] eqn:Ez.
    + pose proof (int_of_zfill w j) as Hi. rewrite Ez in Hi.
      rewrite zfill_digits in Ez. apply app_eq_nil in Ez.
      now apply (str_of_nat_nonempty j).
    + apply Forall_inv in Hd. injection E as E _. subst c. discriminate.
Qed.


Lemma int_of_digits_acc_split (s : pystr) :
  forall acc,
    int_of_digits_acc s acc = acc * 10 ^ length s + int_of_digits_acc s 0.
Proof.
  induction s as [|c s IH]; intros acc; cbn [int_of_digits_acc length].
  - simpl. lia.
  - rewrite (IH (10 * acc + (N.to_nat c - 48))),
            (IH (10 * 0 + (N.to_nat c - 48))).
    rewrite Nat.pow_succ_r'. ring.
Qed.

Lemma digit_value_bound (c : N) :
  is_digit c = true -> N.to_nat c - 48 <= 9 /\ 48 <= N.to_nat c.
Proof.
  unfold is_digit. intros H. apply andb_true_iff in H. destruct H as [H1 H2].
  apply N.leb_le in H1, H2. lia.
Qed.

Lemma int_of_digits_bound (s : pystr) :
  Forall (fun c => is_digit c = true) s ->
  int_of_digits s < 10 ^ length s.
Proof.
  unfold int_of_digits.
  induction 1 as [|c s Hc _ IH]; cbn [int_of_digits_acc length].
  - simpl. lia.
  - rewrite int_of_digits_acc_split, Nat.pow_succ_r'.
    destruct (digit_value_bound c Hc) as [Hd _].
    set (d := N.to_nat c - 48) in *. set (P := 10 ^ length s) in *.
    nia.
Qed.

(** Digit strings of the same length are ordered as the numbers they
    write. *)
Lemma digits_ordered (a : pystr) :
  forall b r r',
    length a = length b ->
    Forall (fun c => is_digit c = true) a ->
    Forall (fun c => is_digit c = true) b ->
    int_of_digits a < int_of_digits b ->
    pystr_leb (a ++ r) (b ++ r') = true.
Proof.
  unfold int_of_digits.
  induction a as [|c a IH]; intros [|c' b] r r' Hlen Ha Hb Hlt;
    try discriminate.
  - simpl in Hlt. lia.
  - cbn [int_of_digits_acc] in Hlt.
    rewrite (int_of_digits_acc_split a), (int_of_digits_acc_split b) in Hlt.
    injection Hlen as Hlen. rewrite <- Hlen in Hlt.
    pose proof (int_of_digits_bound (Forall_inv_tail Ha)) as Ba.
    pose proof (int_of_digits_bound (Forall_inv_tail Hb)) as Bb.
    unfold int_of_digits in Ba, Bb. rewrite <- Hlen in Bb.
    destruct (digit_value_bound c (Forall_inv Ha)) as [_ Hc].
    destruct (digit_value_bound c' (Forall_inv Hb)) as [_ Hc'].
    cbn [app pystr_leb].
    destruct (c <? c')%N eqn:E1; [reflexivity|].
    destruct (c' <? c)%N eqn:E2.
    + exfalso. apply N.ltb_lt in E2.
      assert (Hd : N.to_nat c' - 48 + 1 <= N.to_nat c - 48) by lia.
      set (d := N.to_nat c - 48) in *. set (d' := N.to_nat c' - 48) in *.
      set (P := 10 ^ length a) in *.
      set (x := int_of_digits_acc a 0) in *.
      set (y := int_of_digits_acc b 0) in *.
      nia.
    + apply N.ltb_ge in E1, E2. assert (c = c') by lia. subst c'.
      apply IH; try assumption.
      * exact (Forall_inv_tail Ha).
      * exact (Forall_inv_tail Hb).
      * lia.
Qed.

Lemma pystr_leb_app_prefix (p a b : pystr) :
  pystr_leb (p ++ a) (p ++ b) = pystr_leb a b.
Proof.
  induction p as [|x p IH]; simpl; [reflexivity|].
  now rewrite N.ltb_irrefl.
Qed.

Lemma str_of_nat_leading (n : nat) :
  0 < n -> exists c r, str_of_nat n = c :: r /\ is_digit c = true /\
                       c <> 48%N.
Proof.
  intros Hn. pose proof (str_of_nat_all_digits n) as Hd.
  pose proof (to_uint_normal n) as Hu.
  pose proof (DecimalNat.Unsigned.of_to n) as Hof.
  rewrite str_of_nat_digits in *.
  destruct (Nat.to_uint n) as [|u|u|u|u|u|u|u|u|u|u] eqn:E;
    cbn [NilEmpty.string_of_uint] in *;
    try (rewrite py_String in *; eexists; eexists;
         split; [reflexivity|];
         split; [exact (Forall_inv Hd) | discriminate]).
  - now apply to_uint_nonnil in E.
  - exfalso. rewrite DecimalFacts.unorm_D0 in Hu. unfold Decimal.unorm in Hu.
    destruct (Decimal.nzhead u) eqn:Ez; try discriminate.
    + injection Hu as <-. vm_compute in Hof. lia.
    + now apply DecimalFacts.nzhead_nonzero in Ez.
Qed.

Lemma str_of_nat_lower (n : nat) :
  0 < n -> 10 ^ (length (str_of_nat n) - 1) <= n.
Proof.
  intros Hn. destruct (str_of_nat_leading Hn) as (c & r & E & Hc & H0).
  pose proof (int_of_str n) as Hi. rewrite E in *. unfold int_of_digits in Hi.
  cbn [int_of_digits_acc length] in *.
  rewrite int_of_digits_acc_split in Hi.
  replace (S (length r) - 1) with (length r) by lia.
  destruct (digit_value_bound c Hc) as [_ H48].
  assert (Hd : 1 <= 10 * 0 + (N.to_nat c - 48)).
  { assert (N.to_nat c <> 48) by (intros Hx; apply H0; lia). lia. }
  set (d := 10 * 0 + (N.to_nat c - 48)) in *. set (P := 10 ^ length r) in *.
  nia.
Qed.

Lemma str_of_nat_length (n k : nat) :
  0 < k -> n < 10 ^ k -> length (str_of_nat n) <= k.
Proof.
  intros Hk Hn. destruct n as [|n]; [simpl; lia|].
  pose proof (@str_of_nat_lower (S n) (Nat.lt_0_succ n)) as Hl.
  assert (H : 10 ^ (length (str_of_nat (S n)) - 1) < 10 ^ k) by lia.
  apply Nat.pow_lt_mono_r_iff in H; lia.
Qed.

Lemma str_of_nat_length_mono (i t : nat) :
  i <= t -> length (str_of_nat i) <= length (str_of_nat t).
Proof.
  intros Hit. apply str_of_nat_length.
  - pose proof (str_of_nat_nonempty t). destruct (str_of_nat t);
      [contradiction | simpl; lia].
  - pose proof (int_of_digits_bound (str_of_nat_all_digits t)) as H.
    rewrite int_of_str in H. lia.
Qed.

Lemma zfill_length (w n : nat) :
  length (str_of_nat n) <= w -> length (zfill w (str_of_nat n)) = w.
Proof.
  intros H. rewrite zfill_digits, length_app, repeat_length. lia.
Qed.

Lemma output_audio_path_index (w w' i j : nat) (n m : pystr) :
  output_audio_path w i n = output_audio_path w' j m -> i = j.
Proof.
  unfold output_audio_path. intros E. apply app_inv_head in E.
  change (py "_") with [95%N] in E. cbn [app] in E.
  destruct (@digit_run_unique 95%N _ _ _ _ eq_refl
              (zfill_all_digits w i) (zfill_all_digits w' j) E) as [Hz _].
  rewrite <- (int_of_zfill w i), <- (int_of_zfill w' j). now rewrite Hz.
Qed.

Lemma output_paths_ordered (w i j : nat) (n m : pystr) :
  i < j -> length (str_of_nat j) <= w ->
  pystr_le (output_audio_path w i n) (output_audio_path w j m) /\
  output_audio_path w i n <> output_audio_path w j m.
Proof.
  intros Hij Hw. split.
  - unfold pystr_le, output_audio_path. rewrite pystr_leb_app_prefix.
    assert (Hi : length (str_of_nat i) <= w).
    { etransitivity; [apply (@str_of_nat_length_mono i j); lia | exact Hw]. }
    apply digits_ordered.
    + now rewrite !zfill_length.
    + apply zfill_all_digits.
    + apply zfill_all_digits.
    + now rewrite !int_of_zfill.
  - intros E. apply output_audio_path_index in E. lia.
Qed.

(** X18. In the sequential strategy the names of the output files sort
    into script order: of two entries of a script of [total] entries, the
    earlier one has the smaller file name, whatever the speakers. *)
Theorem sequential_names_in_script_order (total i j : nat) (n m : pystr) :
  i < j -> j <= total ->
  pystr_le (output_audio_path (length (str_of_nat total)) i n)
           (output_audio_path (length (str_of_nat total)) j m) /\
  output_audio_path (length (str_of_nat total)) i n
  <> output_audio_path (length (str_of_nat total)) j m.
Proof.
  intros Hij Hj. apply output_paths_ordered; [exact Hij|].
  now apply str_of_nat_length_mono.
Qed.

(** X19. In the pool strategy, which pads the index to two digits, the
    names of the output files sort into script order as long as the
    indices stay below 100. *)
Theorem pool_names_in_script_order (i j : nat) (n m : pystr) :
  i < j -> j < 100 ->
  pystr_le (output_audio_path 2 i n) (output_audio_path 2 j m) /\
  output_audio_path 2 i n <> output_audio_path 2 j m.
Proof.
  intros Hij Hj. apply output_paths_ordered; [exact Hij|].
  apply str_of_nat_length; [lia|]. simpl. lia.
Qed.


(** ** More on audio generation *)

Lemma fs_exists_write (p q : pystr) (w : Wave) (fs : Filesystem) :
  fs_exists p (fs_write q w fs) = true -> p = q \/ fs_exists p fs = true.
Proof.
  unfold fs_exists. induction fs as [|[p0 c] fs IH]; simpl.
  - rewrite orb_false_r. intros H. left. symmetry. now apply pystr_eqb_eq.
  - destruct (pystr_eqb p0 q) eqn:E; simpl.
    + intros H. now right.
    + destruct (pystr_eqb p0 p); simpl; [now right | exact IH].
Qed.

Lemma fs_exists_remove_same (p : pystr) (fs : Filesystem) :
  fs_exists p (fs_remove p fs) = false.
Proof.
  unfold fs_exists, fs_remove. induction fs as [|[p0 c] fs IH]; simpl;
    [reflexivity|].
  destruct (pystr_eqb p0 p) eqn:E; simpl; [exact IH|].
  now rewrite E.
Qed.

Lemma fs_exists_remove (p q : pystr) (fs : Filesystem) :
  fs_exists p (fs_remove q fs) = true -> fs_exists p fs = true.
Proof.
  unfold fs_exists, fs_remove. induction fs as [|[p0 c] fs IH]; simpl;
    [discriminate|].
  destruct (pystr_eqb p0 q); simpl.
  - intros H. rewrite (IH H). apply orb_true_r.
  - destruct (pystr_eqb p0 p); simpl; [reflexivity | exact IH].
Qed.

Lemma remove_if_exists_gone (p : pystr) (fs : Filesystem) :
  fs_exists p (remove_if_exists p fs) = false.
Proof.
  unfold remove_if_exists. destruct (fs_exists p fs) eqn:E;
    [apply fs_exists_remove_same | exact E].
Qed.

Lemma remove_if_exists_others (p q : pystr) (fs : Filesystem) :
  fs_exists p (remove_if_exists q fs) = true -> fs_exists p fs = true.
Proof.
  unfold remove_if_exists. destruct (fs_exists q fs); [|auto].
  apply fs_exists_remove.
Qed.

Lemma temp_is_no_output (w i j : nat) (n : pystr) :
  temp_audio_path i <> output_audio_path w j n.
Proof.
  unfold temp_audio_path, output_audio_path.
  change (py "audio/temp_") with (py "audio/" ++ py "temp_").
  rewrite <- app_assoc. intros E. apply app_inv_head in E.
  pose proof (zfill_all_digits w j) as Hd.
  destruct (zfill w (str_of_nat j)) as [|c s] eqn:Ez.
  - rewrite zfill_digits in Ez. apply app_eq_nil in Ez.
    now apply (str_of_nat_nonempty j).
  - apply Forall_inv in Hd. injection E as E _. subst c. discriminate.
Qed.

(** What the worker of the pool can add to the directory: the output file
    of its entry, nothing else. *)
Lemma process_entry_exists (sm : SpeakerManager) (fs : Filesystem)
                           (j : nat) (e : Entry) (p : pystr) :
  fs_exists p (process_entry sm fs (j, e)) = true ->
  fs_exists p fs = true \/ p = output_audio_path 2 j (speaker e).
Proof.
  unfold process_entry.
  destruct (get_speaker sm (speaker e)) as [spk|]; [|now left].
  destruct (tts_to_file (text e)) as [[y sr]|]; [|now left].
  intros H.
  assert (Hp : p <> temp_audio_path j).
  { intros ->. now rewrite remove_if_exists_gone in H. }
  apply remove_if_exists_others in H. unfold apply_pitch_shift_librosa in H.
  destruct (pitch_shifted y sr (pitch_factor spk)) as [w|].
  - apply fs_exists_write in H. destruct H as [H|H]; [now right|].
    apply fs_exists_write in H. destruct H as [H|H]; [contradiction|now left].
  - apply fs_exists_write in H. destruct H as [H|H]; [contradiction|now left].
Qed.

(** X20. The pool leaves no temporary file behind: when the directory
    holds none before the run, it holds none after it, in whatever order
    the workers run and whether the engine and the pitch shifter succeed
    or fail. *)
Theorem pool_leaves_no_temp_file
    (schedule : list (nat * Entry) -> list (nat * Entry))
    (sm : SpeakerManager) (fs : Filesystem) :
  (forall i, fs_exists (temp_audio_path i) fs = false) ->
  forall i,
    fs_exists (temp_audio_path i)
              (generate_audio_with_librosa_multithreading schedule sm fs)
    = false.
Proof.
  unfold generate_audio_with_librosa_multithreading.
  generalize (schedule (enumerate1 (superbook sm))) as tasks.
  intros tasks. revert fs.
  induction tasks as [|[j e] tasks IH]; intros fs Hfs i; cbn [fold_left];
    [apply Hfs|].
  apply IH. intros k.
  destruct (fs_exists (temp_audio_path k) (process_entry sm fs (j, e)))
    eqn:E; [|reflexivity].
  apply process_entry_exists in E. destruct E as [E|E].
  - now rewrite Hfs in E.
  - now apply temp_is_no_output in E.
Qed.

Lemma fs_read_write_same (p : pystr) (w : Wave) (fs : Filesystem) :
  fs_read p (fs_write p w fs) = Some w.
Proof.
  unfold fs_read. induction fs as [|[p0 c] fs IH]; simpl.
  - now rewrite pystr_eqb_refl.
  - destruct (pystr_eqb p0 p) eqn:E; simpl; rewrite E; [reflexivity|].
    exact IH.
Qed.

Lemma fs_read_write_other (p q : pystr) (w : Wave) (fs : Filesystem) :
  p <> q -> fs_read p (fs_write q w fs) = fs_read p fs.
Proof.
  intros Hpq. unfold fs_read. induction fs as [|[p0 c] fs IH]; simpl.
  - assert (E : pystr_eqb q p = false) by (apply pystr_eqb_neq; congruence).
    now rewrite E.
  - destruct (pystr_eqb p0 q) eqn:E; simpl.
    + apply pystr_eqb_eq in E. subst p0.
      assert (E : pystr_eqb q p = false) by (apply pystr_eqb_neq; congruence).
      now rewrite E.
    + destruct (pystr_eqb p0 p); [reflexivity | exact IH].
Qed.

Lemma startswith_app (p s : pystr) : startswith p (p ++ s) = true.
Proof.
  induction p as [|c p IH]; simpl; [reflexivity|].
  now rewrite N.eqb_refl.
Qed.

Lemma endswith_app (s p : pystr) : endswith (s ++ p) p = true.
Proof. unfold endswith. rewrite rev_app_distr. apply startswith_app. Qed.

(** X21. The sequential strategy and a waveform shorter than the minimum
    duration: the temporary file is not removed; it stays in the audio
    directory with the waveform that the engine wrote, under a name that
    ends in .wav, whatever the speaker is called.  When the output file
    can be written, it holds the same waveform, unchanged. *)
Theorem sequential_short_keeps_temp_file (num_digits : nat)
    (sm : SpeakerManager) (fs : Filesystem) (index : nat) (entry : Entry)
    (spk : Speaker) (y : list Z) (sr : Z) (duration : Q) :
  get_speaker sm (speaker entry) = Some spk ->
  tts_to_file (text entry) = Some (y, sr) ->
  get_duration y sr = Some duration ->
  (duration < MIN_AUDIO_DURATION)%Q ->
  fs_read (temp_audio_path index)
          (single_thread_entry num_digits sm fs (index, entry))
  = Some (y, sr) /\
  endswith (temp_audio_path index) (py ".wav") = true /\
  (writable_output num_digits index (speaker entry) ->
   fs_read (output_audio_path num_digits index (speaker entry))
           (single_thread_entry num_digits sm fs (index, entry))
   = Some (y, sr)).
Proof.
  intros Hs Ht Hdur Hd.
  rewrite (single_thread_short_unmodified num_digits sm fs index entry
             Hs Ht Hdur Hd).
  split; [|split].
  - rewrite fs_read_write_other by apply temp_is_no_output.
    apply fs_read_write_same.
  - unfold temp_audio_path. rewrite app_assoc. apply endswith_app.
  - intros _. apply fs_read_write_same.
Qed.

Lemma Qmult_zero_num (x : Q) : Qnum (x * 0)%Q = 0%Z.
Proof. simpl. apply Z.mul_0_r. Qed.

(** X22. The pitch shifter writes nothing for a waveform without samples
    or a sample rate of zero: the division by zero is caught, and the
    directory is left as it was. *)
Theorem pitch_shift_skips_empty_waveform (y : list Z) (sr : Z) (pf : Q)
    (output_path : pystr) (fs : Filesystem) :
  y = [] \/ sr = 0%Z ->
  apply_pitch_shift_librosa y sr pf output_path fs = fs.
Proof.
  intros H. unfold apply_pitch_shift_librosa.
  assert (E : pitch_shifted y sr pf = None); [|now rewrite E].
  unfold pitch_shifted, bind.
  destruct (librosa_resample y sr _) as [shifted|]; [|reflexivity].
  destruct H as [-> | ->].
  - unfold py_div at 1. cbn [length Z.of_nat].
    destruct (Qeq_bool (inject_Z sr) 0); [reflexivity|].
    assert (E0 : fl (inject_Z 0 / inject_Z sr) = 0%Q) by reflexivity.
    rewrite E0.
    assert (E1 : fl (float_of_int sr * 0) = 0%Q).
    { unfold fl. now rewrite Qmult_zero_num. }
    rewrite E1. reflexivity.
  - reflexivity.
Qed.


(** ** From the text to the script *)

Lemma content_clean_text (s : pystr) :
  content (clean_text s) = filter kept_char s.
Proof.
  unfold content, clean_text, kept_char.
  induction s as [|c s IH]; simpl; [reflexivity|].
  destruct (is_ascii c); simpl; [|exact IH].
  destruct (is_quote c); simpl; [exact IH|].
  destruct (non_space c); simpl; now rewrite IH.
Qed.

Lemma kept_of_non_space (s : pystr) :
  filter kept_char (filter non_space s) = filter kept_char s.
Proof.
  unfold kept_char. induction s as [|c s IH]; simpl; [reflexivity|].
  destruct (non_space c) eqn:E; simpl.
  - now rewrite E, IH.
  - now rewrite andb_false_r.
Qed.

Lemma kept_strip (s : pystr) :
  filter kept_char (strip s) = filter kept_char s.
Proof.
  rewrite <- (kept_of_non_space (strip s)), strip_content.
  apply kept_of_non_space.
Qed.

Lemma kept_split_lines (s : pystr) :
  concat (List.map (filter kept_char) (split_lines s)) = filter kept_char s.
Proof.
  induction s as [|c s IH]; simpl; [reflexivity|].
  destruct (c =? 10)%N eqn:E.
  - apply N.eqb_eq in E. subst c. simpl. exact IH.
  - destruct (split_lines s) as [|l ls]; simpl in *.
    + rewrite <- IH, app_nil_r. reflexivity.
    + destruct (kept_char c); simpl; now rewrite <- IH.
Qed.

Lemma split_lines_no_newline (s : pystr) :
  Forall (fun l => Forall (fun c => c <> 10%N) l) (split_lines s).
Proof.
  induction s as [|c s IH]; simpl; [repeat constructor|].
  destruct (c =? 10)%N eqn:E.
  - constructor; [constructor | exact IH].
  - apply N.eqb_neq in E. destruct (split_lines s) as [|l ls].
    + repeat constructor. exact E.
    + inversion IH; subst. constructor; [now constructor | assumption].
Qed.

Lemma texts_of_entries (new : list Entry) :
  forall ps, Forall2 entry_of_part new ps ->
             List.map text new = List.map ptext ps.
Proof.
  induction new as [|e new IH]; intros ps H; inversion H; subst;
    [reflexivity|].
  simpl. f_equal; [apply H2 | now apply IH].
Qed.

Lemma lines_content (lines : list pystr) :
  filter non_space
    (joined_text
       (flat_map (fun l => split_narration_dialogue (clean_text l)) lines))
  = concat (List.map (filter kept_char) lines).
Proof.
  induction lines as [|l lines IH]; simpl; [reflexivity|].
  rewrite joined_text_app, filter_app, IH. f_equal.
  rewrite (@split_content_any (length (clean_text l)) _ (le_n _)).
  apply content_clean_text.
Qed.

Lemma lines_no_newline (lines : list pystr) :
  Forall (fun l => Forall (fun c => c <> 10%N) l) lines ->
  Forall (fun p => Forall (fun c => c <> 10%N) (ptext p))
         (flat_map (fun l => split_narration_dialogue (clean_text l)) lines).
Proof.
  induction 1 as [|l lines Hl _ IH]; simpl; [constructor|].
  apply Forall_app. split; [|exact IH].
  assert (Hc : Forall (fun c => c <> 10%N) (clean_text l)).
  { apply Forall_forall. intros c Hc. apply filter_In in Hc.
    exact (proj1 (Forall_forall _ _) Hl c (proj1 Hc)). }
  pose proof (@split_chars (fun c => c <> 10%N) _ (clean_text l) (le_n _) Hc)
    as Hs.
  eapply Forall_impl; [|exact Hs]. intros p Hp.
  eapply Forall_impl; [|exact Hp]. simpl. now intros c [H _].
Qed.

(** X23. From the text to the script: the texts of the script, joined in
    order and white space apart, are the characters of the text that are
    ASCII, not white space and not the quote character, all of them and
    in their order, whether the quotes of a line are balanced or not; and
    no entry holds a line feed. *)
Theorem script_keeps_the_text (text0 : pystr) (r : RandomState) :
  filter non_space
    (concat (List.map text (superbook (main_process_text text0 r))))
  = filter kept_char text0 /\
  Forall (fun e => Forall (fun c => c <> 10%N) (text e))
         (superbook (main_process_text text0 r)).
Proof.
  unfold main_process_text. cbn zeta. cbn [guess_genders_for_speakers superbook].
  unfold process_text_lines.
  destruct (process_lines_entries (split_lines (strip text0)) (init r, None))
    as (new & E & H).
  rewrite E. cbn [fst init superbook app].
  pose proof (texts_of_entries H) as Ht. split.
  - rewrite Ht. fold (joined_text
       (flat_map (fun l => split_narration_dialogue (clean_text l))
                 (split_lines (strip text0)))).
    rewrite lines_content, kept_split_lines. apply kept_strip.
  - apply (proj1 (entries_of_parts (fun c => c <> 10%N) H)).
    apply lines_no_newline, split_lines_no_newline.
Qed.


(** X24. In the script that [main] builds, every entry is under a speaker
    of the registry, the entries under the placeholder Unnamed Speaker 1
    apart. *)
Theorem script_speakers_registered (text0 : pystr) (r : RandomState) :
  Forall (fun e => registered (main_process_text text0 r) (speaker e)
                   \/ speaker e = unnamed_speaker_1)
         (superbook (main_process_text text0 r)).
Proof.
  unfold main_process_text. cbn zeta.
  set (sm := process_text_lines (split_lines (strip text0)) (init r)).
  assert (H : Forall (fun e => registered sm (speaker e)
                               \/ speaker e = unnamed_speaker_1)
                     (superbook sm)).
  { unfold sm, process_text_lines.
    apply (process_lines_ok (split_lines (strip text0))
             (st:=(init r, None))).
    repeat split; simpl.
    - now exists {| name := Narrator; gender := unknown; number := singular;
                    pitch_factor := 1 |}.
    - discriminate.
    - constructor. }
  cbn [guess_genders_for_speakers superbook].
  eapply Forall_impl; [|exact H]. simpl.
  intros e [He|He]; [left | now right].
  eapply registered_grows; [|exact He]. apply guess_genders_grows.
Qed.

Lemma dict_get_value (k v : pystr) (d : list (pystr * pystr)) :
  dict_get k d = Some v -> In v (List.map snd d).
Proof.
  induction d as [|[k' v'] d IH]; simpl; [discriminate|].
  destruct (pystr_eqb k' k); [intros [= ->]; now left | auto].
Qed.

(** X25. The gender read off the pronouns of a line is male, female or
    unknown, whatever the annotator returns. *)
Theorem inferred_gender_values (doc : Doc) :
  In (infer_gender_from_pronouns doc) [py "male"; py "female"; py "unknown"].
Proof.
  unfold infer_gender_from_pronouns.
  induction (tokens doc) as [|t ts IH]; cbn [infer_gender_tokens].
  - right. right. now left.
  - destruct (pystr_eqb (pos_ t) (py "PRON")); [|exact IH].
    destruct (dict_get (lower_ t) pronoun_map) as [g|] eqn:E; [|exact IH].
    apply dict_get_value in E. cbn [pronoun_map List.map snd] in E.
    cbn [In] in *.
    repeat (destruct E as [E|E]; [rewrite <- E; auto|]). contradiction.
Qed.


(** ** Non-ASCII characters *)

Lemma process_line_cleaned (st : Attribution) (line : pystr) :
  exists new,
    superbook (fst (process_line st line)) = superbook (fst st) ++ new /\
    cleaned_line_entries line new.
Proof.
  unfold process_line.
  destruct (process_parts_superbook
              (get_named_speaker (nlp (clean_text line)))
              (if truthy_opt (get_named_speaker (nlp (clean_text line)))
               then infer_gender_from_pronouns (nlp (clean_text line))
               else unknown)
              (split_narration_dialogue (clean_text line)) st)
    as (new & E & H).
  exists new. split; [exact E|]. split; [|split].
  - apply (proj1 (entries_of_parts (fun c => (c <= 127)%N) H)).
    pose proof (@split_chars (fun c => (c <= 127)%N) _ (clean_text line)
                  (le_n _) (clean_text_ascii line)) as Hs.
    eapply Forall_impl; [|exact Hs]. intros p Hp.
    eapply Forall_impl; [|exact Hp]. simpl. intros c [Hc _]. exact Hc.
  - rewrite (texts_of_entries H).
    fold (joined_text (split_narration_dialogue (clean_text line))).
    rewrite (@split_content_any (length (clean_text line)) _ (le_n _)).
    apply content_clean_text.
  - intros Hq. change (filter is_ascii line) with (clean_text line).
    rewrite split_plain in H by now apply clean_text_quote_free.
    unfold part_if_nonblank in H.
    destruct (truthy (strip (clean_text line))).
    + inversion H as [|e p new' ps' [Ht Hn] Hrest]; subst.
      inversion Hrest; subst. destruct e as [sp tx]. simpl in *.
      now rewrite Ht, (Hn eq_refl).
    + now inversion H.
Qed.

Lemma process_lines_cleaned (lines : list pystr) :
  forall st, exists news,
    superbook (fst (process_lines_from lines st))
    = superbook (fst st) ++ concat news /\
    Forall2 cleaned_line_entries lines news.
Proof.
  unfold process_lines_from.
  induction lines as [|line lines IH]; intros st; simpl.
  - exists []. split; [now rewrite app_nil_r | constructor].
  - destruct (IH (process_line st line)) as (news & E & H).
    destruct (process_line_cleaned st line) as (new & E1 & H1).
    exists (new :: news). split; [|now constructor].
    rewrite E, E1. simpl. now rewrite app_assoc.
Qed.

(** C10. The attribution pass deletes the code points above 0x7F of every
    line before it segments and attributes it: its result is that on the
    lines with those code points filtered out.  Line by line, the entries
    it adds have ASCII texts that keep, in order, every ASCII character
    of the line that is not white space or the ASCII quote; and a line
    without the ASCII quote, typographic quotes or not, gives its ASCII
    characters, stripped, as one entry under the narrator. *)
Theorem C10_script_text_is_ascii (lines : list pystr) (sm : SpeakerManager) :
  process_text_lines lines sm
  = process_text_lines (List.map (filter is_ascii) lines) sm /\
  exists news,
    superbook (process_text_lines lines sm) = superbook sm ++ concat news /\
    Forall2 cleaned_line_entries lines news.
Proof.
  unfold process_text_lines. split.
  - change (filter is_ascii) with clean_text. now rewrite process_lines_clean.
  - apply (process_lines_cleaned lines (sm, None)).
Qed.

End Collaborators.

(* ================================================================= *)
(** * The program on concrete inputs *)

(** The line in which Meg says Let's go, Meg being tagged as a person:
    the narration goes to the narrator, the quoted words to Meg, who is
    registered. *)
Example named_speaker_line :
  let sm := process_text_lines (nlp_person (py "Meg")) ascii_only_alnum
              [py "Meg said, " ++ QUOTE :: py "Let's go." ++ [QUOTE]]
              (init (constant_random 0)) in
  superbook sm
  = [ {| speaker := Narrator; text := py "Meg said," |};
      {| speaker := py "Meg"; text := py "Let's go." |} ] /\
  List.map name (speakers sm) = [Narrator; py "Meg"].
Proof. split; vm_compute; reflexivity. Qed.

(** A line with one quoted sentence after its narration has balanced
    quotes. *)
Lemma C6_balanced_line_content_witness :
  let line := py "Meg said, " ++ QUOTE :: py "Let's go." ++ [QUOTE] in
  Nat.even (count_quotes line) = true /\
  filter non_space (joined_text (split_narration_dialogue line))
  = content line.
Proof.
  intros line. split; [reflexivity|].
  apply (C6_balanced_line_content line). reflexivity.
Defined.

(** On the line made of ab, one quote and cd, the two sides of the stray
    quote come out as two narration segments and the quote is in neither
    of them. *)
Lemma C7_stray_quote_not_in_narration :
  Nat.odd (count_quotes (py "ab" ++ QUOTE :: py "cd")) = true /\
  split_narration_dialogue (py "ab" ++ QUOTE :: py "cd")
  = [ {| ptype := narration; ptext := py "ab" |};
      {| ptype := narration; ptext := py "cd" |} ] /\
  ~ (exists p,
        In p (split_narration_dialogue (py "ab" ++ QUOTE :: py "cd")) /\
        ptype p = narration /\ In QUOTE (ptext p)).
Proof.
  assert (E : split_narration_dialogue (py "ab" ++ QUOTE :: py "cd")
              = [ {| ptype := narration; ptext := py "ab" |};
                  {| ptype := narration; ptext := py "cd" |} ])
    by (vm_compute; reflexivity).
  split; [reflexivity|]. split; [exact E|].
  rewrite E. intros (p & [<-|[<-|[]]] & _ & Hq); vm_compute in Hq;
    repeat (destruct Hq as [Hq|Hq]; [discriminate|]); exact Hq.
Qed.

Lemma C7_unmatched_quote_dropped_witness :
  Nat.odd (count_quotes (py "ab" ++ QUOTE :: py "cd")) = true /\
  exists before after,
    py "ab" ++ QUOTE :: py "cd" = before ++ QUOTE :: after /\
    quote_free after /\
    Nat.even (count_quotes before) = true /\
    split_narration_dialogue (py "ab" ++ QUOTE :: py "cd")
    = split_narration_dialogue before ++ part_if_nonblank narration after /\
    Forall (fun p => quote_free (ptext p))
           (split_narration_dialogue (py "ab" ++ QUOTE :: py "cd")).
Proof.
  split; [reflexivity|].
  apply (C7_unmatched_quote_dropped (py "ab" ++ QUOTE :: py "cd")).
  reflexivity.
Defined.

(** The text [she said nothing and asked Meg] holds the verb [asked]
    followed by the capitalised [Meg], yet the speaker registered and made
    the last known speaker is [nothing], and [Meg] is not registered. *)
Lemma C5_capitalised_token_not_registered :
  py "she said nothing and asked Meg"
  = py "she said nothing and " ++ py "asked" ++ 32%N :: py "Meg" /\
  In (py "asked") attribution_verbs /\
  get_speaker
    (fst (process_part ascii_only_alnum None unknown
            (init (constant_random 0), None)
            {| ptype := narration;
               ptext := py "she said nothing and asked Meg" |}))
    (py "Meg") = None /\
  snd (process_part ascii_only_alnum None unknown
         (init (constant_random 0), None)
         {| ptype := narration;
            ptext := py "she said nothing and asked Meg" |})
  = Some (py "nothing").
Proof.
  split; [reflexivity|]. split; [right; left; reflexivity|].
  split; vm_compute; reflexivity.
Qed.

Lemma C5_narration_attribution_witness :
  superbook
    (fst (process_part ascii_only_alnum None unknown
            (init (constant_random 0), None)
            {| ptype := narration; ptext := py "said Meg." |}))
  = [ {| speaker := Narrator; text := py "said Meg." |} ].
Proof.
  apply (@C5_narration_attribution ascii_only_alnum None unknown
           (init (constant_random 0)) None
           {| ptype := narration; ptext := py "said Meg." |}).
  reflexivity.
Defined.

(** C2. One gap too many.  The assembler appends the silence after every
    file, the last one too: a directory with the one file 01_Narrator.wav
    gives the audio of the file followed by a gap, where the delay between
    lines, there being one line, calls for none; with two files there are
    two gaps, one between them and one at the end.  The gap is the segment
    [silent(300)]: 3307 frames of silence at 11025 Hz. *)
Theorem C2_gap_after_last_file (from_wav : pystr -> AudioSegment) :
  combine_audio_files [py "01_Narrator.wav"] from_wav
  = from_wav (py "01_Narrator.wav") ++ silent DELAY_BETWEEN_LINES_MS /\
  combine_audio_files [py "02_Meg.wav"; py "01_Narrator.wav"] from_wav
  = from_wav (py "01_Narrator.wav") ++ silent DELAY_BETWEEN_LINES_MS
    ++ from_wav (py "02_Meg.wav") ++ silent DELAY_BETWEEN_LINES_MS /\
  length (silent DELAY_BETWEEN_LINES_MS) = 3307.
Proof.
  assert (H0 : silent 0 = []) by (vm_compute; reflexivity).
  assert (H1 : wav_files (sorted [py "01_Narrator.wav"])
               = [py "01_Narrator.wav"]) by (vm_compute; reflexivity).
  assert (H2 : wav_files (sorted [py "02_Meg.wav"; py "01_Narrator.wav"])
               = [py "01_Narrator.wav"; py "02_Meg.wav"])
    by (vm_compute; reflexivity).
  unfold combine_audio_files. rewrite !combine_fold_concat, H0, H1, H2.
  cbn [List.map concat app]. rewrite !app_nil_r, <- !app_assoc.
  split; [reflexivity|]. split; [reflexivity|].
  vm_compute. reflexivity.
Qed.

(** With the largest draw, [2^53 - 1], the pitch factor of a new speaker
    is the float 1.3 itself: the sum 0.8 + 0.5 * (1 - 2^-53) rounds up to
    it. *)
Lemma C8_largest_draw_reaches_upper_end :
  get_speaker
    (add_speaker (py "Meg") unknown singular
       (init (constant_random (2 ^ 53 - 1))))
    (py "Meg")
  = Some {| name := py "Meg"; gender := unknown; number := singular;
            pitch_factor := fl (13 # 10) |} /\
  ~ (fl (13 # 10) < 13 # 10)%Q /\
  ~ (fl (13 # 10) < fl (13 # 10))%Q.
Proof.
  split; [vm_compute; reflexivity|]. split; vm_compute; discriminate.
Qed.

(** Meg, registered from a narration line with the draw 2^52 (pitch factor
    1.05), keeps her pitch factor through a look-up, a second registration
    and the gender pass. *)
Lemma C8_pitch_factor_fixed_witness :
  py "Meg" <> Narrator /\
  get_speaker
    (run_ops nlp_blank ascii_only_alnum nd_empty
       [OpProcessTextLines [py "said Meg."]]
       (init (constant_random (2 ^ 52))))
    (py "Meg")
  = Some {| name := py "Meg"; gender := unknown; number := singular;
            pitch_factor := 4728779608739021 # 4503599627370496 |} /\
  ((fl (8 # 10) <= 4728779608739021 # 4503599627370496 /\
    (4728779608739021 # 4503599627370496) <= fl (13 # 10))%Q /\
   exists s',
     get_speaker
       (run_ops nlp_blank ascii_only_alnum nd_empty
          [OpGetSpeaker (py "Meg");
           OpAddSpeaker (py "Meg") (py "female") singular;
           OpGuessGenders]
          (run_ops nlp_blank ascii_only_alnum nd_empty
             [OpProcessTextLines [py "said Meg."]]
             (init (constant_random (2 ^ 52)))))
       (py "Meg") = Some s' /\
     pitch_factor s'
     = (4728779608739021 # 4503599627370496)%Q).
Proof.
  assert (Hn : py "Meg" <> Narrator) by (vm_compute; discriminate).
  assert (Hs : get_speaker
                 (run_ops nlp_blank ascii_only_alnum nd_empty
                    [OpProcessTextLines [py "said Meg."]]
                    (init (constant_random (2 ^ 52))))
                 (py "Meg")
               = Some {| name := py "Meg"; gender := unknown;
                         number := singular;
                         pitch_factor :=
                           4728779608739021 # 4503599627370496 |})
    by (vm_compute; reflexivity).
  split; [exact Hn|]. split; [exact Hs|].
  exact (@C8_pitch_factor_fixed nlp_blank ascii_only_alnum nd_empty
           (constant_random (2 ^ 52))
           [OpProcessTextLines [py "said Meg."]]
           [OpGetSpeaker (py "Meg");
            OpAddSpeaker (py "Meg") (py "female") singular;
            OpGuessGenders]
           (py "Meg") _ Hn Hs).
Defined.

(** A sentence quoted with typographic quotes only (code points 8220 and
    8221, with the apostrophe 8217): what is left of it is one entry
    under the narrator, none of it dialogue. *)
Lemma C10_script_text_is_ascii_witness :
  superbook
    (process_text_lines nlp_blank ascii_only_alnum
       [8220%N :: py "Let" ++ 8217%N :: py "s go," ++ 8221%N
          :: py " said Meg."]
       (init (constant_random 0)))
  = [ {| speaker := Narrator; text := py "Lets go, said Meg." |} ].
Proof.
  destruct (proj2 (@C10_script_text_is_ascii nlp_blank ascii_only_alnum
                     [8220%N :: py "Let" ++ 8217%N :: py "s go," ++ 8221%N
                        :: py " said Meg."]
                     (init (constant_random 0))))
    as (news & E & H).
  inversion H as [|line new lines' news' (_ & _ & Hn) Hrest]; subst.
  inversion Hrest; subst.
  rewrite E, Hn.
  - vm_compute. reflexivity.
  - intros Hin. vm_compute in Hin.
    repeat (destruct Hin as [Hin|Hin]; [discriminate|]). exact Hin.
Defined.

(** C4. On the line made of the quoted words I don't know, followed by
    he whispered., with no named speaker and no earlier speaker, the
    dialogue is entered under Unnamed Speaker 1, a name the registry does
    not hold; the alternation mode registers that same name before it uses
    it. *)
Theorem C4_placeholder_not_registered :
  superbook
    (process_text_lines nlp_blank ascii_only_alnum
       [QUOTE :: py "I don't know," ++ QUOTE :: py " he whispered."]
       (init (constant_random 0)))
  = [ {| speaker := unnamed_speaker_1; text := py "I don't know," |};
      {| speaker := Narrator; text := py "he whispered." |} ] /\
  get_speaker
    (process_text_lines nlp_blank ascii_only_alnum
       [QUOTE :: py "I don't know," ++ QUOTE :: py " he whispered."]
       (init (constant_random 0)))
    unnamed_speaker_1 = None /\
  List.map name
    (speakers
       (alternate_speakers_without_person_entities
          [QUOTE :: py "I don't know," ++ QUOTE :: py " he whispered."]
          (init (constant_random 0))))
  = [Narrator; unnamed_speaker_1; unnamed_speaker_2].
Proof. repeat split; vm_compute; reflexivity. Qed.

(** C1. With a script of one entry the sequential strategy writes
    1_Narrator.wav and the pool writes 01_Narrator.wav.  With a script of a
    hundred entries the sequential names, padded to three digits, sort
    into script order, while the names of the pool, padded to two digits,
    do not: 100_Narrator.wav sorts before 10_Narrator.wav. *)
Theorem C1_padding_width_differs :
  listdir (py "audio")
    (generate_audio_with_librosa_single_thread
       (tts_constant ([1; 2; 3; 4]%Z, 2%Z))
       resample_nearest time_stretch_nearest
       (process_text_lines nlp_blank ascii_only_alnum [py "Hi"]
          (init (constant_random 0))) [])
  = [py "1_Narrator.wav"] /\
  listdir (py "audio")
    (generate_audio_with_librosa_multithreading
       (tts_constant ([1; 2; 3; 4]%Z, 2%Z))
       resample_nearest time_stretch_nearest (fun tasks => tasks)
       (process_text_lines nlp_blank ascii_only_alnum [py "Hi"]
          (init (constant_random 0))) [])
  = [py "01_Narrator.wav"] /\
  (let names :=
     listdir (py "audio")
       (generate_audio_with_librosa_single_thread
          (tts_constant ([1; 2; 3; 4]%Z, 2%Z))
          resample_nearest time_stretch_nearest
          (process_text_lines nlp_blank ascii_only_alnum
             (repeat (py "Hi") 100) (init (constant_random 0))) []) in
   length names = 100 /\ sorted names = names) /\
  (let names :=
     listdir (py "audio")
       (generate_audio_with_librosa_multithreading
          (tts_constant ([1; 2; 3; 4]%Z, 2%Z))
          resample_nearest time_stretch_nearest (fun tasks => tasks)
          (process_text_lines nlp_blank ascii_only_alnum
             (repeat (py "Hi") 100) (init (constant_random 0))) []) in
   length names = 100 /\
   nth 9 names [] = py "10_Narrator.wav" /\
   nth 9 (sorted names) [] = py "100_Narrator.wav").
Proof. repeat split; vm_compute; reflexivity. Qed.

(** C3. Meg has pitch factor 1.05 and the engine gives eight samples at
    20 Hz, which last 0.4 s.  The sequential strategy writes them to
    1_Meg.wav as they are; the pool sends them through the pitch shifter
    and writes other samples to 01_Meg.wav. *)
Theorem C3_pool_shifts_short_waveform :
  (exists duration,
      get_duration [10; 20; 30; 40; 50; 60; 70; 80]%Z 20 = Some duration /\
      (duration < MIN_AUDIO_DURATION)%Q) /\
  In (py "audio/1_Meg.wav", ([10; 20; 30; 40; 50; 60; 70; 80]%Z, 20%Z))
     (generate_audio_with_librosa_single_thread
        (tts_constant ([10; 20; 30; 40; 50; 60; 70; 80]%Z, 20%Z))
        resample_nearest time_stretch_nearest
        (append_entry {| speaker := py "Meg"; text := py "Hi" |}
           (add_speaker (py "Meg") unknown singular
              (init (constant_random (2 ^ 52))))) []) /\
  generate_audio_with_librosa_multithreading
    (tts_constant ([10; 20; 30; 40; 50; 60; 70; 80]%Z, 20%Z))
    resample_nearest time_stretch_nearest (fun tasks => tasks)
    (append_entry {| speaker := py "Meg"; text := py "Hi" |}
       (add_speaker (py "Meg") unknown singular
          (init (constant_random (2 ^ 52))))) []
  = [ (py "audio/01_Meg.wav",
       ([10; 10; 20; 30; 40; 50; 60; 70]%Z, 20%Z)) ].
Proof.
  split; [|split].
  - eexists. split; [vm_compute; reflexivity | reflexivity].
  - vm_compute. right. left. reflexivity.
  - vm_compute. reflexivity.
Qed.

(* ================================================================= *)
(** ** The registry on concrete inputs *)

Lemma add_speaker_new_lookup_witness :
  get_speaker (init (constant_random 0)) (py "Meg") = None /\
  exists s,
    get_speaker (add_speaker (py "Meg") (py "female") singular
                             (init (constant_random 0))) (py "Meg")
    = Some s /\
    name s = py "Meg" /\ gender s = py "female" /\ number s = singular /\
    in_pitch_range (pitch_factor s) /\
    speakers (add_speaker (py "Meg") (py "female") singular
                          (init (constant_random 0)))
    = speakers (init (constant_random 0)) ++ [s] /\
    superbook (add_speaker (py "Meg") (py "female") singular
                           (init (constant_random 0)))
    = superbook (init (constant_random 0)).
Proof.
  assert (H : get_speaker (init (constant_random 0)) (py "Meg") = None)
    by (vm_compute; reflexivity).
  split; [exact H|].
  exact (add_speaker_new_lookup (py "Meg") (py "female") singular
                                (init (constant_random 0)) H).
Defined.

Lemma add_speaker_other_name_witness :
  Narrator <> py "Meg" /\
  get_speaker (add_speaker (py "Meg") (py "female") singular
                           (init (constant_random 0))) Narrator
  = get_speaker (init (constant_random 0)) Narrator.
Proof.
  assert (H : Narrator <> py "Meg") by (vm_compute; discriminate).
  split; [exact H|].
  exact (add_speaker_other_name (py "female") singular
                                (init (constant_random 0)) H).
Defined.

Lemma number_and_known_gender_fixed_witness :
  let sm := add_speaker (py "Meg") (py "female") singular
                        (init (constant_random 0)) in
  let s := {| name := py "Meg"; gender := py "female"; number := singular;
              pitch_factor := fl (8 # 10) |} in
  let ops := [OpAddSpeaker (py "Meg") (py "male") (py "plural");
              OpGuessGenders;
              OpProcessTextLines [py "said Meg."]] in
  get_speaker sm (py "Meg") = Some s /\
  exists s',
    get_speaker (run_ops nlp_blank ascii_only_alnum nd_empty ops sm)
                (py "Meg") = Some s' /\
    number s' = number s /\
    (gender s <> unknown -> gender s' = gender s).
Proof.
  intros sm s ops.
  assert (H : get_speaker sm (py "Meg") = Some s)
    by (vm_compute; reflexivity).
  split; [exact H|].
  exact (number_and_known_gender_fixed nlp_blank ascii_only_alnum nd_empty
                                       ops sm (py "Meg") H).
Defined.

(* ================================================================= *)
(** ** The attribution pass on concrete inputs *)

Lemma blank_line_skipped_witness :
  content (clean_text (py "  " ++ QUOTE :: py " " ++ [QUOTE; 233%N])) = [] /\
  process_line nlp_blank ascii_only_alnum
    (init (constant_random 0), Some (py "Meg"))
    (py "  " ++ QUOTE :: py " " ++ [QUOTE; 233%N])
  = (init (constant_random 0), Some (py "Meg")).
Proof.
  assert (H : content (clean_text (py "  " ++ QUOTE :: py " "
                                      ++ [QUOTE; 233%N])) = [])
    by (vm_compute; reflexivity).
  split; [exact H|].
  exact (blank_line_skipped nlp_blank ascii_only_alnum
           (init (constant_random 0), Some (py "Meg")) _ H).
Defined.

Lemma named_speaker_takes_dialogue_witness :
  get_named_speaker
    (nlp_person (py "Meg")
       (clean_text (QUOTE :: py "Hi," ++ QUOTE :: py " said Bob.")))
  = Some (py "Meg") /\
  py "Meg" <> [] /\
  exists new,
    superbook (fst (process_line (nlp_person (py "Meg")) ascii_only_alnum
                      (init (constant_random 0), Some (py "Tom"))
                      (QUOTE :: py "Hi," ++ QUOTE :: py " said Bob.")))
    = superbook (init (constant_random 0)) ++ new /\
    Forall2 (fun e p =>
               text e = ptext p /\
               speaker e = match ptype p with
                           | dialogue => py "Meg"
                           | narration => Narrator
                           end)
            new
            (split_narration_dialogue
               (clean_text (QUOTE :: py "Hi," ++ QUOTE :: py " said Bob."))) /\
    ((exists p,
         In p (split_narration_dialogue
                 (clean_text (QUOTE :: py "Hi," ++ QUOTE :: py " said Bob.")))
         /\ ptype p = dialogue) ->
     registered
       (fst (process_line (nlp_person (py "Meg")) ascii_only_alnum
               (init (constant_random 0), Some (py "Tom"))
               (QUOTE :: py "Hi," ++ QUOTE :: py " said Bob.")))
       (py "Meg")).
Proof.
  assert (H1 : get_named_speaker
                 (nlp_person (py "Meg")
                    (clean_text (QUOTE :: py "Hi,"
                                   ++ QUOTE :: py " said Bob.")))
               = Some (py "Meg")) by reflexivity.
  assert (H2 : py "Meg" <> []) by (vm_compute; discriminate).
  split; [exact H1|]. split; [exact H2|].
  exact (named_speaker_takes_dialogue (nlp_person (py "Meg")) ascii_only_alnum
           (init (constant_random 0), Some (py "Tom")) _ H1 H2).
Defined.

Lemma trailing_attribution_is_for_later_witness :
  clean_text (QUOTE :: py "Hi," ++ QUOTE :: py " said Meg.")
  = QUOTE :: py "Hi," ++ QUOTE :: py " said Meg." /\
  quote_free (py "Hi,") /\
  quote_free (py " said Meg.") /\
  strip (py "Hi,") <> [] /\
  if_truthy (get_named_speaker
               (nlp_blank (QUOTE :: py "Hi," ++ QUOTE :: py " said Meg.")))
  = None /\
  detect_attribution ascii_only_alnum (strip (py " said Meg."))
  = Some (py "Meg") /\
  process_line nlp_blank ascii_only_alnum
    (init (constant_random 0), Some (py "Tom"))
    (QUOTE :: py "Hi," ++ QUOTE :: py " said Meg.")
  = (append_entry {| speaker := Narrator; text := strip (py " said Meg.") |}
       (add_speaker (py "Meg") unknown singular
          (append_entry
             {| speaker := match if_truthy (Some (py "Tom")) with
                           | Some s => s
                           | None => unnamed_speaker_1
                           end;
                text := strip (py "Hi,") |}
             (init (constant_random 0)))),
     Some (py "Meg")).
Proof.
  assert (H1 : clean_text (QUOTE :: py "Hi," ++ QUOTE :: py " said Meg.")
               = QUOTE :: py "Hi," ++ QUOTE :: py " said Meg.")
    by (vm_compute; reflexivity).
  assert (H2 : quote_free (py "Hi,")) by (repeat constructor).
  assert (H3 : quote_free (py " said Meg.")) by (repeat constructor).
  assert (H4 : strip (py "Hi,") <> []) by (vm_compute; discriminate).
  assert (H5 : if_truthy
                 (get_named_speaker
                    (nlp_blank (QUOTE :: py "Hi,"
                                  ++ QUOTE :: py " said Meg."))) = None)
    by reflexivity.
  assert (H6 : detect_attribution ascii_only_alnum (strip (py " said Meg."))
               = Some (py "Meg")) by (vm_compute; reflexivity).
  split; [exact H1|]. split; [exact H2|]. split; [exact H3|].
  split; [exact H4|]. split; [exact H5|]. split; [exact H6|].
  exact (trailing_attribution_is_for_later nlp_blank ascii_only_alnum
           (init (constant_random 0)) (Some (py "Tom")) H1 H2 H3 H4 H5 H6).
Defined.

(* ================================================================= *)
(** ** Files and assembly on concrete inputs *)

Lemma combined_independent_of_listing_order_witness :
  Permutation [py "02_Meg.wav"; py "01_Narrator.wav"]
              [py "01_Narrator.wav"; py "02_Meg.wav"] /\
  combine_audio_files [py "02_Meg.wav"; py "01_Narrator.wav"]
                      (fun f => List.map Z.of_N f)
  = combine_audio_files [py "01_Narrator.wav"; py "02_Meg.wav"]
                        (fun f => List.map Z.of_N f).
Proof.
  assert (H : Permutation [py "02_Meg.wav"; py "01_Narrator.wav"]
                          [py "01_Narrator.wav"; py "02_Meg.wav"])
    by apply perm_swap.
  split; [exact H|].
  exact (combined_independent_of_listing_order
           (fun f => List.map Z.of_N f) H).
Defined.

Lemma sequential_names_in_script_order_witness :
  9 < 10 /\ 10 <= 120 /\
  pystr_le (output_audio_path (length (str_of_nat 120)) 9 (py "Meg"))
           (output_audio_path (length (str_of_nat 120)) 10 Narrator) /\
  output_audio_path (length (str_of_nat 120)) 9 (py "Meg")
  <> output_audio_path (length (str_of_nat 120)) 10 Narrator.
Proof.
  assert (H1 : 9 < 10) by lia.
  assert (H2 : 10 <= 120) by lia.
  split; [exact H1|]. split; [exact H2|].
  exact (sequential_names_in_script_order (py "Meg") Narrator H1 H2).
Defined.

Lemma pool_names_in_script_order_witness :
  9 < 10 /\ 10 < 100 /\
  pystr_le (output_audio_path 2 9 (py "Meg"))
           (output_audio_path 2 10 Narrator) /\
  output_audio_path 2 9 (py "Meg") <> output_audio_path 2 10 Narrator.
Proof.
  assert (H1 : 9 < 10) by lia.
  assert (H2 : 10 < 100) by lia.
  split; [exact H1|]. split; [exact H2|].
  exact (pool_names_in_script_order (py "Meg") Narrator H1 H2).
Defined.

Lemma pool_leaves_no_temp_file_witness :
  (forall i, fs_exists (temp_audio_path i) [] = false) /\
  fs_exists (temp_audio_path 1)
    (generate_audio_with_librosa_multithreading
       (tts_constant ([1; 2; 3; 4]%Z, 2%Z))
       resample_nearest time_stretch_nearest (fun tasks => rev tasks)
       (process_text_lines nlp_blank ascii_only_alnum
          [py "Hi"; py "there"] (init (constant_random 0))) [])
  = false.
Proof.
  assert (H : forall i, fs_exists (temp_audio_path i) [] = false)
    by (intros i; reflexivity).
  split; [exact H|].
  exact (pool_leaves_no_temp_file
           (tts_constant ([1; 2; 3; 4]%Z, 2%Z))
           resample_nearest time_stretch_nearest (fun tasks => rev tasks)
           (process_text_lines nlp_blank ascii_only_alnum
              [py "Hi"; py "there"] (init (constant_random 0))) [] H 1).
Defined.

Lemma sequential_short_keeps_temp_file_witness :
  get_speaker (add_speaker (py "Meg") unknown singular
                 (init (constant_random (2 ^ 52))))
              (speaker {| speaker := py "Meg"; text := py "Hi" |})
  = Some {| name := py "Meg"; gender := unknown; number := singular;
            pitch_factor := 4728779608739021 # 4503599627370496 |} /\
  tts_constant ([7]%Z, 4%Z) (text {| speaker := py "Meg"; text := py "Hi" |})
  = Some ([7]%Z, 4%Z) /\
  get_duration [7]%Z 4 = Some (1 # 4) /\
  (1 # 4 < MIN_AUDIO_DURATION)%Q /\
  writable_output 1 1 (py "Meg") /\
  fs_read (temp_audio_path 1)
          (single_thread_entry (tts_constant ([7]%Z, 4%Z))
             resample_nearest time_stretch_nearest 1
             (add_speaker (py "Meg") unknown singular
                (init (constant_random (2 ^ 52))))
             [] (1, {| speaker := py "Meg"; text := py "Hi" |}))
  = Some ([7]%Z, 4%Z) /\
  endswith (temp_audio_path 1) (py ".wav") = true /\
  fs_read (output_audio_path 1 1 (py "Meg"))
          (single_thread_entry (tts_constant ([7]%Z, 4%Z))
             resample_nearest time_stretch_nearest 1
             (add_speaker (py "Meg") unknown singular
                (init (constant_random (2 ^ 52))))
             [] (1, {| speaker := py "Meg"; text := py "Hi" |}))
  = Some ([7]%Z, 4%Z).
Proof.
  assert (H1 : get_speaker (add_speaker (py "Meg") unknown singular
                              (init (constant_random (2 ^ 52))))
                 (speaker {| speaker := py "Meg"; text := py "Hi" |})
               = Some {| name := py "Meg"; gender := unknown;
                         number := singular;
                         pitch_factor :=
                           4728779608739021 # 4503599627370496 |})
    by (vm_compute; reflexivity).
  assert (H2 : tts_constant ([7]%Z, 4%Z)
                 (text {| speaker := py "Meg"; text := py "Hi" |})
               = Some ([7]%Z, 4%Z)) by reflexivity.
  assert (H3 : get_duration [7]%Z 4 = Some (1 # 4))
    by (vm_compute; reflexivity).
  assert (H4 : (1 # 4 < MIN_AUDIO_DURATION)%Q) by reflexivity.
  assert (H5 : writable_output 1 1 (py "Meg")).
  { split; [repeat constructor | vm_compute; lia]. }
  pose proof (sequential_short_keeps_temp_file
                (tts_constant ([7]%Z, 4%Z)) resample_nearest
                time_stretch_nearest 1
                (add_speaker (py "Meg") unknown singular
                   (init (constant_random (2 ^ 52))))
                [] 1 {| speaker := py "Meg"; text := py "Hi" |} H1 H2 H3 H4)
    as (Ht & He & Ho).
  split; [exact H1|]. split; [exact H2|]. split; [exact H3|].
  split; [exact H4|]. split; [exact H5|]. split; [exact Ht|].
  split; [exact He|]. exact (Ho H5).
Defined.

Lemma pitch_shift_skips_empty_waveform_witness :
  (@nil Z = [] \/ 22050%Z = 0%Z) /\
  apply_pitch_shift_librosa resample_nearest time_stretch_nearest
    [] 22050 (11 # 10) (py "audio/01_Meg.wav")
    [(py "audio/temp_1.wav", ([], 22050%Z))]
  = [(py "audio/temp_1.wav", ([], 22050%Z))].
Proof.
  assert (H : @nil Z = [] \/ 22050%Z = 0%Z) by (left; reflexivity).
  split; [exact H|].
  exact (pitch_shift_skips_empty_waveform resample_nearest
           time_stretch_nearest (11 # 10) (py "audio/01_Meg.wav")
           [(py "audio/temp_1.wav", ([], 22050%Z))] H).
Defined.
